(** * ScoredProcessingResult: applied processing steps and their scores

    A shallow embedding of
    [OpenMS/METADATA/ID/ScoredProcessingResult.h]
    (namespace [OpenMS::IdentificationDataInternal]).

    - [std::map<ScoreTypeRef, double>] is a [gmap ScoreTypeRef double];
    - [double] is the binary64 type of primitive floats; scores are only
      stored and handed back, never computed with;
    - the [boost::multi_index_container] with a [sequenced<>] index and an
      [ordered_unique] index on [processing_step_opt] is the list of its
      elements in sequence order; the operations of the two indices that
      the header calls ([find], [push_back], [modify]) are functions on
      that list, with the insertion and modification checks of the unique
      index written out.  A list stands for a container when its keys are
      pairwise different ([unique_steps]);
    - member functions take the object as their last argument and return
      the updated object; arguments passed by const reference are values,
      and the one call in which the argument may be the object itself
      ([a += a]) has a loop of its own ([merge_steps_aliased]). *)

From Stdlib Require Import PrimFloat.
From stdpp Require Import base option list fin_maps gmap.

(** ** Scores *)

Definition double : Type := float.

(** [std::numeric_limits<double>::quiet_NaN()] *)
Definition quiet_NaN : double := nan.

Section ScoredProcessingResult.

(** [ProcessingStepRef] and [ScoreTypeRef] are declared in headers that
    are included but not part of this development
    ([DataProcessingStep.h], [ScoreType.h]): opaque references that are
    only compared.  The ordered index compares
    [boost::optional<ProcessingStepRef>] keys with a strict total order;
    two keys are equivalent for it exactly when they are equal. *)
Context {ProcessingStepRef : Type} `{EqDecision ProcessingStepRef}.
Context {ScoreTypeRef : Type} `{Countable ScoreTypeRef}.

(** [DataValue] is the value type of the meta info map of
    [MetaInfoInterface]; its default element is [DataValue::EMPTY]. *)
Context {DataValue : Type} `{Inhabited DataValue}.

(** ** AppliedProcessingStep *)

Record AppliedProcessingStep : Type := mkAppliedProcessingStep {
  processing_step_opt : option ProcessingStepRef;
  scores : gmap ScoreTypeRef double
}.

(** ** AppliedProcessingSteps *)

Abbreviation AppliedProcessingSteps := (list AppliedProcessingStep).

(** The keys of the container in sequence order. *)
Definition step_keys (c : AppliedProcessingSteps)
  : list (option ProcessingStepRef) :=
  processing_step_opt <$> c.

(** What the [ordered_unique] index guarantees of every container: no two
    elements have the same key.  A value of the C++ type always satisfies
    it; it is the premise under which a list stands for a container. *)
Definition unique_steps (c : AppliedProcessingSteps) : Prop :=
  NoDup (step_keys c).

(** [c.get<1>().find(key)]: an iterator of the unique index, here the
    position in the sequence of the element with this key together with
    the element it points to; [None] is [end()]. *)
Definition find (key : option ProcessingStepRef) (c : AppliedProcessingSteps)
  : option (nat * AppliedProcessingStep) :=
  list_find (λ step, processing_step_opt step = key) c.

(** [c.push_back(x)]: the element is appended unless the unique index
    already holds an element with its key, in which case nothing is
    inserted. *)
Definition push_back (x : AppliedProcessingStep) (c : AppliedProcessingSteps)
  : AppliedProcessingSteps :=
  match find (processing_step_opt x) c with
  | None => c ++ [x]
  | Some _ => c
  end.

(** [c.get<1>().modify(pos, modifier)]: [modifier] is applied to the
    element at [pos], which keeps its place in the sequence; when its new
    key collides with the key of another element, the element is erased. *)
Definition modify (pos : nat)
    (modifier : AppliedProcessingStep → AppliedProcessingStep)
    (c : AppliedProcessingSteps) : AppliedProcessingSteps :=
  match c !! pos with
  | None => c
  | Some old =>
      let new := modifier old in
      if decide (processing_step_opt new ∈ step_keys (delete pos c))
      then delete pos c
      else <[pos := new]> c
  end.

(** ** MetaInfoInterface *)

(** Modelled from the spec: [MetaInfoInterface], the base class of
    [ScoredProcessingResult], is not part of this development.  It is the
    flat key-value metadata map of the owning record, whose entries are
    overwritten on key collision: [getKeys] lists the keys present,
    [getMetaValue] reads one ([DataValue::EMPTY] when absent) and
    [setMetaValue] writes one. *)
Definition getKeys (m : gmap N DataValue) : list N := (map_to_list m).*1.

(** Modelled from the spec: [MetaInfoInterface::getMetaValue], see
    [getKeys]. *)
Definition getMetaValue (key : N) (m : gmap N DataValue) : DataValue :=
  m !!! key.

(** Modelled from the spec: [MetaInfoInterface::setMetaValue], see
    [getKeys]. *)
Definition setMetaValue (key : N) (value : DataValue) (m : gmap N DataValue)
  : gmap N DataValue :=
  <[key := value]> m.

(** ** ScoredProcessingResult *)

Record ScoredProcessingResult : Type := mkScoredProcessingResult {
  meta_info : gmap N DataValue;
  steps_and_scores : AppliedProcessingSteps
}.

Definition with_steps (c : AppliedProcessingSteps)
    (self : ScoredProcessingResult) : ScoredProcessingResult :=
  {| meta_info := meta_info self; steps_and_scores := c |}.

Definition with_meta (m : gmap N DataValue)
    (self : ScoredProcessingResult) : ScoredProcessingResult :=
  {| meta_info := m; steps_and_scores := steps_and_scores self |}.

(** The modifier of [addProcessingStep]:
    [for (const auto& pair : step.scores)
       old_step.scores[pair.first] = pair.second;] *)
Definition update_scores (step old_step : AppliedProcessingStep)
  : AppliedProcessingStep :=
  {| processing_step_opt := processing_step_opt old_step;
     scores := map_fold (λ score_type score acc, <[score_type := score]> acc)
                 (scores old_step) (scores step) |}.

(** [void addProcessingStep(const AppliedProcessingStep& step)] *)
Definition addProcessingStep (step : AppliedProcessingStep)
    (self : ScoredProcessingResult) : ScoredProcessingResult :=
  match find (processing_step_opt step) (steps_and_scores self) with
  | None => (* new step *)
      with_steps (push_back step (steps_and_scores self)) self
  | Some step_pos => (* existing step - add or update scores *)
      with_steps
        (modify step_pos.1 (update_scores step) (steps_and_scores self)) self
  end.

(** [void addProcessingStep(ProcessingStepRef step_ref, const
    std::map<ScoreTypeRef, double>& scores)] *)
Definition addProcessingStep_ref (step_ref : ProcessingStepRef)
    (scores : gmap ScoreTypeRef double)
    (self : ScoredProcessingResult) : ScoredProcessingResult :=
  let applied := mkAppliedProcessingStep (Some step_ref) scores in
  addProcessingStep applied self.

(** [void addScore(ScoreTypeRef score_type, double score, const
    boost::optional<ProcessingStepRef>& processing_step_opt)] *)
Definition addScore (score_type : ScoreTypeRef) (score : double)
    (processing_step_opt : option ProcessingStepRef)
    (self : ScoredProcessingResult) : ScoredProcessingResult :=
  let applied := mkAppliedProcessingStep processing_step_opt ∅ in
  let applied :=
    mkAppliedProcessingStep processing_step_opt
      (<[score_type := score]> (scores applied)) in
  addProcessingStep applied self.

(** [ScoredProcessingResult& operator+=(const ScoredProcessingResult& other)] *)
Definition operator_plus_eq (self other : ScoredProcessingResult)
  : ScoredProcessingResult :=
  (* merge applied processing steps and scores: *)
  let self :=
    foldl (λ self step, addProcessingStep step self)
      self (steps_and_scores other) in
  (* merge meta info - existing entries may be overwritten: *)
  let keys := getKeys (meta_info other) in
  foldl (λ self key,
           with_meta
             (setMetaValue key (getMetaValue key (meta_info other))
                (meta_info self)) self)
    self keys.

(** The first loop of [operator+=] when [other] is the object itself
    ([a += a]): the iterator walks the sequence that the calls of
    [addProcessingStep] are changing, [pos] is its position and
    [steps_and_scores.end()] is reached when no element is there.  [None]
    when [fuel] calls did not reach the end. *)
Fixpoint merge_steps_aliased (fuel pos : nat) (self : ScoredProcessingResult)
  : option ScoredProcessingResult :=
  match steps_and_scores self !! pos with
  | None => Some self
  | Some step =>
      match fuel with
      | 0 => None
      | S fuel =>
          merge_steps_aliased fuel (S pos) (addProcessingStep step self)
      end
  end.

(** The loop of [getScoreAndStep] over the steps still to be visited. *)
Fixpoint scan_steps (score_ref : ScoreTypeRef)
    (todo : list AppliedProcessingStep)
  : double * option ProcessingStepRef * bool :=
  match todo with
  | [] => (* not found: *) (quiet_NaN, None, false)
  | step :: todo =>
      match scores step !! score_ref with
      | Some score => (score, processing_step_opt step, true)
      | None => scan_steps score_ref todo
      end
  end.

(** [std::tuple<double, boost::optional<ProcessingStepRef>, bool>
    getScoreAndStep(ScoreTypeRef score_ref) const] *)
Definition getScoreAndStep (score_ref : ScoreTypeRef)
    (self : ScoredProcessingResult)
  : double * option ProcessingStepRef * bool :=
  (* give priority to scores from later processing steps: *)
  scan_steps score_ref (reverse (steps_and_scores self)).

(** [std::pair<double, bool> getScore(ScoreTypeRef score_ref) const] *)
Definition getScore (score_ref : ScoreTypeRef) (self : ScoredProcessingResult)
  : double * bool :=
  let result := getScoreAndStep score_ref self in
  (result.1.1, result.2).

(** [std::pair<double, bool> getScore(ScoreTypeRef score_ref,
    boost::optional<ProcessingStepRef> processing_step_opt) const] *)
Definition getScore_by_step (score_ref : ScoreTypeRef)
    (processing_step_opt : option ProcessingStepRef)
    (self : ScoredProcessingResult) : double * bool :=
  match find processing_step_opt (steps_and_scores self) with
  | Some step_pos =>
      match scores step_pos.2 !! score_ref with
      | Some score => (score, true)
      | None => (quiet_NaN, false)
      end
  | None => (* not found: *) (quiet_NaN, false)
  end.

(** ** Reachable objects *)

(** [ScoredProcessingResult()]: no step, no score, no meta value. *)
Definition empty_result : ScoredProcessingResult :=
  {| meta_info := ∅; steps_and_scores := [] |}.

(** The default constructor leaves [steps_and_scores] empty; the mutating
    member functions of the header are the only way to change it. *)
Inductive reachable : ScoredProcessingResult → Prop :=
  | reachable_empty m :
      reachable {| meta_info := m; steps_and_scores := [] |}
  | reachable_addProcessingStep step self :
      reachable self → reachable (addProcessingStep step self)
  | reachable_addScore score_type score step_opt self :
      reachable self → reachable (addScore score_type score step_opt self)
  | reachable_operator_plus_eq self other :
      reachable self → reachable other →
      reachable (operator_plus_eq self other).

(** ** The same operations, following the specification's wording *)

(** Writing every pair of [new] into [old]: the union of the two score
    maps in which the values of [new] win. *)
Definition union_scores (new old : gmap ScoreTypeRef double)
  : gmap ScoreTypeRef double :=
  new ∪ old.

(** The entry of [other] with the key of [entry], merged into [entry]. *)
Definition merged_entry (other : AppliedProcessingSteps)
    (entry : AppliedProcessingStep) : AppliedProcessingStep :=
  match find (processing_step_opt entry) other with
  | Some found =>
      {| processing_step_opt := processing_step_opt entry;
         scores := union_scores (scores found.2) (scores entry) |}
  | None => entry
  end.

(** The net effect of a merge: the entries of [self] in their order, each
    united with its counterpart in [other], followed by the entries of
    [other] whose step [self] does not have, in the order of [other]. *)
Definition merge_spec (other self : AppliedProcessingSteps)
  : AppliedProcessingSteps :=
  (merged_entry other <$> self)
  ++ filter (λ step, processing_step_opt step ∉ step_keys self) other.

(** Order stability of a call that turns [before] into [after]: the steps
    of [before] keep their places, the steps that were not present follow
    them. *)
Definition extends_in_place (before after : AppliedProcessingSteps) : Prop :=
  ∃ added,
    step_keys after = step_keys before ++ added
    ∧ ∀ key, key ∈ added → key ∉ step_keys before.

(** The first value for [score_ref], newest entry first. *)
Definition getScore_spec (score_ref : ScoreTypeRef)
    (c : AppliedProcessingSteps) : double * bool :=
  match list_find (λ step, is_Some (scores step !! score_ref)) (reverse c) with
  | Some (_, step) => (default quiet_NaN (scores step !! score_ref), true)
  | None => (quiet_NaN, false)
  end.

(** ** Further definitions *)

(** [bool operator==(const AppliedProcessingStep& other) const]: the
    optional step references are equal and [scores == other.scores], the
    comparison of [std::map]: the same score types, and for each of them
    values that [==] of [double] holds equal. *)
Definition AppliedProcessingStep_eq (self other : AppliedProcessingStep)
  : bool :=
  bool_decide (processing_step_opt self = processing_step_opt other)
  && bool_decide
       (map_relation (A:=double) (B:=double)
          (λ _ score1 score2, PrimFloat.eqb score1 score2 = true)
          (λ _ _, False) (λ _ _, False) (scores self) (scores other)).

(** The score map that the container holds for the step [key], [None]
    when the step has no entry. *)
Definition entry_scores (key : option ProcessingStepRef)
    (c : AppliedProcessingSteps) : option (gmap ScoreTypeRef double) :=
  (λ step_pos, scores step_pos.2) <$> find key c.

(** * Properties *)

Implicit Types (c : AppliedProcessingSteps)
  (step old new : AppliedProcessingStep)
  (key : option ProcessingStepRef)
  (self other : ScoredProcessingResult).

(** *** Scores *)

Lemma quiet_NaN_is_nan : is_nan quiet_NaN = true.
Proof. reflexivity. Qed.

(** *** Lists *)

Lemma filter_ext_elem_of {A} (P Q : A → Prop)
    `{!∀ x, Decision (P x)} `{!∀ x, Decision (Q x)} (l : list A) :
  (∀ x, x ∈ l → P x ↔ Q x) → filter P l = filter Q l.
Proof.
  induction l as [|x l IH]; intros HPQ; [done|].
  rewrite !filter_cons, IH by (intros y Hy; apply HPQ; by right).
  destruct (HPQ x) as [HP HQ]; [left|].
  destruct (decide (P x)), (decide (Q x)); tauto || done.
Qed.

(** *** The unique index *)

Lemma find_Some key c pos step :
  find key c = Some (pos, step) →
  c !! pos = Some step ∧ processing_step_opt step = key.
Proof. unfold find. by intros (? & ? & _)%list_find_Some. Qed.

Lemma find_None key c : find key c = None ↔ key ∉ step_keys c.
Proof.
  unfold find, step_keys.
  rewrite list_find_None, Forall_forall, list_elem_of_fmap. split.
  - intros Hall (step & -> & Hin). by apply (Hall step).
  - intros Hnot step Hin Hk. apply Hnot. by exists step.
Qed.

Lemma find_is_Some key c : key ∈ step_keys c → is_Some (find key c).
Proof.
  intros Hin. destruct (find key c) eqn:E; [eauto|].
  by apply find_None in E.
Qed.

Lemma step_keys_lookup c pos step :
  c !! pos = Some step → step_keys c !! pos = Some (processing_step_opt step).
Proof. intros E. unfold step_keys. by rewrite list_lookup_fmap, E. Qed.

Lemma unique_steps_lookup c i j step1 step2 :
  unique_steps c → c !! i = Some step1 → c !! j = Some step2 →
  processing_step_opt step1 = processing_step_opt step2 → i = j.
Proof.
  intros Hc E1%step_keys_lookup E2%step_keys_lookup Hk. rewrite Hk in E1.
  by apply (NoDup_lookup _ _ _ _ Hc E1 E2).
Qed.

Lemma find_unique c pos step :
  unique_steps c → c !! pos = Some step →
  find (processing_step_opt step) c = Some (pos, step).
Proof.
  intros Hc E. unfold find. apply list_find_Some. split_and!; [done..|].
  intros j y Ej Hlt Hk.
  apply step_keys_lookup in E, Ej. rewrite Hk in Ej.
  pose proof (NoDup_lookup _ _ _ _ Hc E Ej). lia.
Qed.

Lemma unique_steps_delete c pos step :
  unique_steps c → c !! pos = Some step →
  processing_step_opt step ∉ step_keys (delete pos c).
Proof.
  unfold unique_steps, step_keys. intros Hc E.
  rewrite <-(take_drop_middle c pos step E), fmap_app, fmap_cons in Hc.
  rewrite delete_take_drop, fmap_app.
  apply NoDup_app in Hc as (_ & Hl & Hr). apply NoDup_cons in Hr as [Hr _].
  rewrite elem_of_app. intros [Hin|Hin]; [|done].
  apply (Hl _ Hin). left.
Qed.

Lemma step_keys_insert c pos old new :
  c !! pos = Some old → processing_step_opt new = processing_step_opt old →
  step_keys (<[pos := new]> c) = step_keys c.
Proof.
  intros E Hk. unfold step_keys. rewrite list_fmap_insert, Hk.
  apply list_insert_id. by apply step_keys_lookup.
Qed.

(** The container keeps its keys unique whatever is pushed and whatever
    the modifier does. *)
Lemma push_back_unique x c : unique_steps c → unique_steps (push_back x c).
Proof.
  intros Hc. unfold push_back.
  destruct (find (processing_step_opt x) c) eqn:Hf; [done|].
  apply find_None in Hf. unfold unique_steps, step_keys.
  rewrite fmap_app. apply NoDup_app.
  split_and!; [done| |apply NoDup_singleton].
  intros key Hkey Hx%list_elem_of_singleton. by subst.
Qed.

Lemma modify_unique pos modifier c :
  unique_steps c → unique_steps (modify pos modifier c).
Proof.
  intros Hc. unfold modify. destruct (c !! pos) as [old|] eqn:E; [|done].
  assert (unique_steps (delete pos c)) as Hdel.
  { unfold unique_steps, step_keys. rewrite list_fmap_delete.
    eapply sublist_NoDup; [exact Hc|apply sublist_delete]. }
  simpl. case_decide as Hin; [done|].
  unfold unique_steps, step_keys in *.
  rewrite list_fmap_insert, insert_take_drop
    by (rewrite length_fmap; by eapply lookup_lt_Some).
  rewrite list_fmap_delete, delete_take_drop in Hin, Hdel.
  rewrite <-Permutation_middle. by apply NoDup_cons.
Qed.

(** *** The modifier *)

Lemma update_scores_scores step old :
  scores (update_scores step old) = union_scores (scores step) (scores old).
Proof.
  unfold update_scores, union_scores; simpl.
  apply (map_fold_weak_ind (λ r m, r = m ∪ scores old)).
  - by rewrite (left_id_L ∅ (∪)).
  - intros i x m r _ ->. apply insert_union_l.
Qed.

Lemma union_scores_lookup (new_scores old_scores : gmap ScoreTypeRef double)
    score_type :
  union_scores new_scores old_scores !! score_type =
  match new_scores !! score_type with
  | Some score => Some score
  | None => old_scores !! score_type
  end.
Proof.
  unfold union_scores. rewrite lookup_union.
  by destruct (new_scores !! score_type), (old_scores !! score_type).
Qed.

Lemma modify_same_key c pos old modifier :
  unique_steps c → c !! pos = Some old →
  processing_step_opt (modifier old) = processing_step_opt old →
  modify pos modifier c = <[pos := modifier old]> c.
Proof.
  intros Hc E Hk. unfold modify. rewrite E; simpl. rewrite Hk.
  rewrite decide_False; [done|]. by apply unique_steps_delete.
Qed.

Lemma update_scores_eq step old :
  update_scores step old =
  {| processing_step_opt := processing_step_opt old;
     scores := union_scores (scores step) (scores old) |}.
Proof. by rewrite <-update_scores_scores. Qed.

(** *** addProcessingStep *)

Lemma addProcessingStep_new step self :
  processing_step_opt step ∉ step_keys (steps_and_scores self) →
  steps_and_scores (addProcessingStep step self) =
  steps_and_scores self ++ [step].
Proof.
  intros Hnew%find_None. unfold addProcessingStep. rewrite Hnew.
  unfold with_steps, push_back; simpl. by rewrite Hnew.
Qed.

Lemma addProcessingStep_existing step self pos old :
  unique_steps (steps_and_scores self) →
  steps_and_scores self !! pos = Some old →
  processing_step_opt old = processing_step_opt step →
  steps_and_scores (addProcessingStep step self) =
  <[pos := update_scores step old]> (steps_and_scores self).
Proof.
  intros Hc E Hk. unfold addProcessingStep.
  rewrite <-Hk, (find_unique _ _ _ Hc E); simpl.
  by apply modify_same_key.
Qed.

Lemma addProcessingStep_meta_info step self :
  meta_info (addProcessingStep step self) = meta_info self.
Proof. unfold addProcessingStep. by destruct (find _ _). Qed.

Lemma addProcessingStep_keys step self :
  unique_steps (steps_and_scores self) →
  step_keys (steps_and_scores (addProcessingStep step self)) =
  step_keys (steps_and_scores self)
  ++ (if decide (processing_step_opt step ∈ step_keys (steps_and_scores self))
      then [] else [processing_step_opt step]).
Proof.
  intros Hc. case_decide as Hin.
  - destruct (find_is_Some _ _ Hin) as [[pos old] Hf].
    apply find_Some in Hf as [E Hk].
    rewrite (addProcessingStep_existing _ _ _ _ Hc E Hk).
    rewrite (right_id_L [] (++)). by apply (step_keys_insert _ _ old).
  - rewrite (addProcessingStep_new _ _ Hin). unfold step_keys.
    by rewrite fmap_app.
Qed.

Lemma addProcessingStep_unique step self :
  unique_steps (steps_and_scores self) →
  unique_steps (steps_and_scores (addProcessingStep step self)).
Proof.
  intros Hc. unfold addProcessingStep.
  destruct (find _ _) as [step_pos|]; simpl.
  - by apply modify_unique.
  - by apply push_back_unique.
Qed.

(** *** operator+= *)

Lemma operator_plus_eq_steps other self :
  steps_and_scores (operator_plus_eq self other) =
  steps_and_scores
    (foldl (λ self step, addProcessingStep step self)
       self (steps_and_scores other)).
Proof.
  unfold operator_plus_eq.
  generalize (foldl (λ self step, addProcessingStep step self)
                self (steps_and_scores other)).
  induction (getKeys (meta_info other)) as [|key keys IH]; intros merged.
  - done.
  - simpl. by rewrite IH.
Qed.

Lemma merge_loop_unique (c : AppliedProcessingSteps) self :
  unique_steps (steps_and_scores self) →
  unique_steps
    (steps_and_scores
       (foldl (λ self step, addProcessingStep step self) self c)).
Proof.
  revert self. induction c as [|step c IH]; intros self Hc; [done|].
  simpl. by apply IH, addProcessingStep_unique.
Qed.

Lemma merged_entry_fresh c step :
  processing_step_opt step ∉ step_keys c → merged_entry c step = step.
Proof. intros Hf%find_None. unfold merged_entry. by rewrite Hf. Qed.

Lemma merged_entry_cons_eq new c step :
  processing_step_opt new = processing_step_opt step →
  merged_entry (new :: c) step = update_scores new step.
Proof.
  intros Hk. rewrite update_scores_eq. unfold merged_entry, find; simpl.
  by rewrite decide_True.
Qed.

Lemma merged_entry_cons_ne new c step :
  processing_step_opt new ≠ processing_step_opt step →
  merged_entry (new :: c) step = merged_entry c step.
Proof.
  intros Hk. unfold merged_entry, find; simpl.
  rewrite decide_False by done. by destruct (list_find _ c) as [[]|].
Qed.

Lemma merge_loop_spec (c : AppliedProcessingSteps) self :
  unique_steps (steps_and_scores self) → unique_steps c →
  steps_and_scores (foldl (λ self step, addProcessingStep step self) self c)
  = merge_spec c (steps_and_scores self).
Proof.
  revert self. induction c as [|new c IH]; intros self Hc Ho.
  { unfold merge_spec; simpl. rewrite filter_nil, (right_id_L [] (++)).
    by rewrite <-(list_fmap_id (steps_and_scores self)) at 1. }
  apply NoDup_cons in Ho as [Hnew Ho]. fold (step_keys c) in Hnew.
  simpl. rewrite IH by (done || by apply addProcessingStep_unique).
  unfold merge_spec. rewrite (addProcessingStep_keys _ _ Hc).
  rewrite filter_cons. case_decide as Hin.
  - (* the step exists: its scores are updated in place *)
    destruct (find_is_Some _ _ Hin) as [[pos old] Hf].
    apply find_Some in Hf as [E Hk].
    rewrite (addProcessingStep_existing _ _ _ _ Hc E Hk).
    rewrite (right_id_L [] (++)), decide_False by (by intros Hnot).
    f_equal. rewrite list_fmap_insert.
    rewrite merged_entry_fresh by (by simpl; rewrite Hk).
    apply list_eq; intros j. destruct (decide (j = pos)) as [->|Hj].
    + rewrite list_lookup_insert_eq
        by (rewrite length_fmap; by eapply lookup_lt_Some).
      rewrite list_lookup_fmap, E; simpl. by rewrite merged_entry_cons_eq.
    + rewrite list_lookup_insert_ne, !list_lookup_fmap by done.
      destruct (steps_and_scores self !! j) as [step|] eqn:Ej; [simpl|done].
      rewrite merged_entry_cons_ne; [done|].
      intros Hk'. apply Hj.
      apply step_keys_lookup in E, Ej. rewrite Hk, Hk' in E.
      by apply (NoDup_lookup _ _ _ _ Hc Ej E).
  - (* a new step: appended *)
    rewrite (addProcessingStep_new _ _ Hin), decide_True by done.
    rewrite fmap_app, <-(assoc_L (++)); simpl.
    rewrite (merged_entry_fresh c new) by done.
    f_equal; [|f_equal].
    + apply list_fmap_ext. intros j step Ej.
      rewrite merged_entry_cons_ne; [done|]. intros Hk. apply Hin.
      rewrite Hk. apply list_elem_of_fmap. exists step. split; [done|].
      by eapply list_elem_of_lookup_2.
    + apply filter_ext_elem_of. intros step Hstep.
      rewrite elem_of_app, list_elem_of_singleton.
      assert (processing_step_opt step ≠ processing_step_opt new); [|tauto].
      intros Hk. apply Hnew. rewrite <-Hk. by apply list_elem_of_fmap_2.
Qed.

(** *** The reverse scan *)

Lemma scan_steps_skip score_ref (skipped todo : list AppliedProcessingStep) :
  (∀ step, step ∈ skipped → scores step !! score_ref = None) →
  scan_steps score_ref (skipped ++ todo) = scan_steps score_ref todo.
Proof.
  induction skipped as [|step skipped IH]; intros Hskip; [done|].
  simpl. rewrite (Hskip step) by left. apply IH.
  intros later Hlater. apply Hskip. by right.
Qed.

Lemma scan_steps_miss score_ref (todo : list AppliedProcessingStep) :
  (∀ step, step ∈ todo → scores step !! score_ref = None) →
  scan_steps score_ref todo = (quiet_NaN, None, false).
Proof.
  intros Hmiss. rewrite <-(right_id_L [] (++) todo).
  by rewrite scan_steps_skip.
Qed.

Lemma scan_steps_find score_ref (todo : list AppliedProcessingStep) :
  ((scan_steps score_ref todo).1.1, (scan_steps score_ref todo).2) =
  match list_find (λ step, is_Some (scores step !! score_ref)) todo with
  | Some (_, step) => (default quiet_NaN (scores step !! score_ref), true)
  | None => (quiet_NaN, false)
  end.
Proof.
  induction todo as [|step todo IH]; [done|]. simpl.
  destruct (scores step !! score_ref) as [score|] eqn:E.
  - rewrite decide_True by eauto. simpl. by rewrite E.
  - rewrite decide_False by (by intros []). rewrite IH.
    by destruct (list_find _ todo) as [[]|].
Qed.

(** *** Direct lookup *)

Lemma getScore_by_step_lookup score_ref self pos step :
  unique_steps (steps_and_scores self) →
  steps_and_scores self !! pos = Some step →
  getScore_by_step score_ref (processing_step_opt step) self =
  match scores step !! score_ref with
  | Some score => (score, true)
  | None => (quiet_NaN, false)
  end.
Proof.
  intros Hc E. unfold getScore_by_step. by rewrite (find_unique _ _ _ Hc E).
Qed.

Lemma getScore_by_step_absent score_ref step_opt self :
  step_opt ∉ step_keys (steps_and_scores self) →
  getScore_by_step score_ref step_opt self = (quiet_NaN, false).
Proof. intros Hf%find_None. unfold getScore_by_step. by rewrite Hf. Qed.

Lemma addScore_lookup score_type score step_opt self :
  unique_steps (steps_and_scores self) →
  ∃ pos step,
    steps_and_scores (addScore score_type score step_opt self) !! pos
    = Some step
    ∧ processing_step_opt step = step_opt
    ∧ scores step !! score_type = Some score.
Proof.
  intros Hc. unfold addScore; simpl.
  set (applied := mkAppliedProcessingStep step_opt (<[score_type:=score]> ∅)).
  destruct (decide (step_opt ∈ step_keys (steps_and_scores self))) as [Hin|Hin].
  - destruct (find_is_Some _ _ Hin) as [[pos old] Hf].
    apply find_Some in Hf as [E Hk].
    exists pos, (update_scores applied old).
    rewrite (addProcessingStep_existing applied _ _ _ Hc E Hk).
    split_and!; [|done|].
    + apply list_lookup_insert_eq. by eapply lookup_lt_Some.
    + rewrite update_scores_scores. apply lookup_union_Some_l.
      apply lookup_insert_eq.
  - exists (length (steps_and_scores self)), applied.
    rewrite (addProcessingStep_new applied) by done.
    split_and!; [|done|apply lookup_insert_eq].
    by rewrite lookup_app_r, Nat.sub_diag.
Qed.

Lemma getScore_addScore score_type score step_opt self :
  unique_steps (steps_and_scores self) →
  getScore_by_step score_type step_opt (addScore score_type score step_opt self)
  = (score, true).
Proof.
  intros Hc.
  destruct (addScore_lookup score_type score step_opt self Hc)
    as (pos & step & E & <- & Hscore).
  rewrite (getScore_by_step_lookup _ _ pos step), Hscore; [done| |done].
  by apply addProcessingStep_unique.
Qed.

(** *** Calls that change nothing *)

Lemma addProcessingStep_with_steps step self :
  addProcessingStep step self =
  with_steps (steps_and_scores (addProcessingStep step self)) self.
Proof. unfold addProcessingStep. by destruct (find _ _). Qed.

Lemma addProcessingStep_noop step self pos old :
  unique_steps (steps_and_scores self) →
  steps_and_scores self !! pos = Some old →
  processing_step_opt old = processing_step_opt step →
  (∀ score_type score,
     scores step !! score_type = Some score →
     scores old !! score_type = Some score) →
  addProcessingStep step self = self.
Proof.
  intros Hc E Hk Hsub.
  rewrite addProcessingStep_with_steps.
  rewrite (addProcessingStep_existing _ _ _ _ Hc E Hk).
  rewrite update_scores_eq. unfold union_scores.
  rewrite map_subseteq_union by (by apply map_subseteq_spec).
  destruct old as [old_key old_scores], self as [m c]; simpl in *.
  unfold with_steps; simpl. by rewrite list_insert_id.
Qed.

Lemma merge_loop_noop (c : AppliedProcessingSteps) self :
  unique_steps (steps_and_scores self) →
  (∀ step, step ∈ c → step ∈ steps_and_scores self) →
  foldl (λ self step, addProcessingStep step self) self c = self.
Proof.
  intros Hc. induction c as [|step c IH]; intros Hsub; [done|]. simpl.
  destruct (list_elem_of_lookup_1 (steps_and_scores self) step) as [pos E];
    [apply Hsub; left|].
  rewrite (addProcessingStep_noop step self pos step) by done.
  apply IH. intros later Hlater. apply Hsub. by right.
Qed.

Lemma merge_steps_aliased_noop fuel pos self :
  unique_steps (steps_and_scores self) →
  length (steps_and_scores self) ≤ pos + fuel →
  merge_steps_aliased fuel pos self = Some self.
Proof.
  intros Hc. revert pos. induction fuel as [|fuel IH]; intros pos Hlen.
  - simpl. rewrite lookup_ge_None_2; [done|lia].
  - simpl. destruct (steps_and_scores self !! pos) as [step|] eqn:E; [|done].
    rewrite (addProcessingStep_noop step self pos step) by done.
    apply IH. lia.
Qed.

(** *** Order of the entries *)

Lemma extends_in_place_unique (before after : AppliedProcessingSteps) added :
  unique_steps after →
  step_keys after = step_keys before ++ added →
  extends_in_place before after.
Proof.
  unfold unique_steps. intros Hc Hkeys. exists added. split; [done|].
  rewrite Hkeys in Hc. apply NoDup_app in Hc as (_ & Hsep & _).
  intros key Hadded Hbefore. by apply (Hsep key).
Qed.

Lemma addProcessingStep_extends step self :
  unique_steps (steps_and_scores self) →
  extends_in_place (steps_and_scores self)
    (steps_and_scores (addProcessingStep step self)).
Proof.
  intros Hc. eapply extends_in_place_unique.
  - by apply addProcessingStep_unique.
  - by apply addProcessingStep_keys.
Qed.

Lemma merge_loop_keys (c : AppliedProcessingSteps) self :
  unique_steps (steps_and_scores self) →
  ∃ added,
    step_keys
      (steps_and_scores
         (foldl (λ self step, addProcessingStep step self) self c))
    = step_keys (steps_and_scores self) ++ added.
Proof.
  revert self. induction c as [|step c IH]; intros self Hc; simpl.
  - exists []. by rewrite (right_id_L [] (++)).
  - destruct (IH (addProcessingStep step self)) as [added Hadded];
      [by apply addProcessingStep_unique|].
    rewrite Hadded, (addProcessingStep_keys _ _ Hc), <-(assoc_L (++)).
    by eexists.
Qed.

Lemma extends_in_place_lookup (before after : AppliedProcessingSteps) pos old :
  extends_in_place before after →
  before !! pos = Some old →
  ∃ new, after !! pos = Some new
         ∧ processing_step_opt new = processing_step_opt old.
Proof.
  intros (added & Hkeys & _) E.
  assert (step_keys after !! pos = Some (processing_step_opt old)) as Hpos.
  { rewrite Hkeys. apply lookup_app_l_Some. by apply step_keys_lookup. }
  unfold step_keys in Hpos. rewrite list_lookup_fmap in Hpos.
  destruct (after !! pos) as [new|]; [|done].
  exists new. split; [done|]. by injection Hpos.
Qed.

(** ** Properties of the specification *)

(** C1: in every object reachable from the empty one by calls of
    [addProcessingStep], [addScore] and [operator+=], no two entries of
    [steps_and_scores] have the same [processing_step_opt]; the absent
    step is a key like the others, so at most one entry has none. *)
Theorem reachable_unique_steps self :
  reachable self →
  unique_steps (steps_and_scores self)
  ∧ (∀ i j step1 step2,
       steps_and_scores self !! i = Some step1 →
       steps_and_scores self !! j = Some step2 →
       processing_step_opt step1 = processing_step_opt step2 →
       i = j).
Proof.
  intros Hself.
  assert (unique_steps (steps_and_scores self)) as Hc.
  { induction Hself as [m|step self _ IH|score_type score step_opt self _ IH
                        |self other _ IH _ _].
    - apply NoDup_nil_2.
    - by apply addProcessingStep_unique.
    - by apply addProcessingStep_unique.
    - rewrite operator_plus_eq_steps. by apply merge_loop_unique. }
  split; [done|]. intros i j step1 step2. by apply unique_steps_lookup.
Qed.

(** C2: [addProcessingStep(step)] appends [step] as the new last entry
    when no entry has its [processing_step_opt]; otherwise the entry that
    has it stays at its position, every pair of [step.scores] is written
    into its score map, and the score types that [step.scores] does not
    mention keep their values. *)
Theorem addProcessingStep_spec step self :
  unique_steps (steps_and_scores self) →
  (processing_step_opt step ∉ step_keys (steps_and_scores self) →
   steps_and_scores (addProcessingStep step self) =
   steps_and_scores self ++ [step])
  ∧ (∀ pos old,
       steps_and_scores self !! pos = Some old →
       processing_step_opt old = processing_step_opt step →
       ∃ new,
         steps_and_scores (addProcessingStep step self) =
         <[pos := new]> (steps_and_scores self)
         ∧ processing_step_opt new = processing_step_opt old
         ∧ (∀ score_type score,
              scores step !! score_type = Some score →
              scores new !! score_type = Some score)
         ∧ (∀ score_type,
              scores step !! score_type = None →
              scores new !! score_type = scores old !! score_type)).
Proof.
  intros Hc. split; [apply addProcessingStep_new|].
  intros pos old E Hk. exists (update_scores step old).
  split_and!; [by apply addProcessingStep_existing|done|..].
  - intros score_type score Hs. rewrite update_scores_scores.
    by apply lookup_union_Some_l.
  - intros score_type Hs. rewrite update_scores_scores.
    by apply lookup_union_r.
Qed.

(** C3: [getScoreAndStep(T)] visits the entries last-appended first and
    returns the value, the step reference option and [true] of the first
    one whose score map has [T]: the entry after which no entry has [T].
    With the entry of [S1] (first, [T = 1.0]) and the entry of [S2]
    (second, [T = 2.0]), [getScore(T)] is [(2.0, true)] and
    [getScoreAndStep(T)] is [(2.0, S2, true)].  When no entry has [T] the
    result is [(NaN, none, false)]. *)
Theorem getScoreAndStep_spec score_ref self :
  (∀ before step after score,
     steps_and_scores self = before ++ step :: after →
     scores step !! score_ref = Some score →
     (∀ later, later ∈ after → scores later !! score_ref = None) →
     getScoreAndStep score_ref self = (score, processing_step_opt step, true)
     ∧ getScore score_ref self = (score, true))
  ∧ (∀ S1 S2 first second,
       steps_and_scores self = [first; second] →
       processing_step_opt first = Some S1 →
       processing_step_opt second = Some S2 →
       scores first !! score_ref = Some 1.0%float →
       scores second !! score_ref = Some 2.0%float →
       getScore score_ref self = (2.0%float, true)
       ∧ getScoreAndStep score_ref self = (2.0%float, Some S2, true))
  ∧ ((∀ step, step ∈ steps_and_scores self →
              scores step !! score_ref = None) →
     getScoreAndStep score_ref self = (quiet_NaN, None, false)).
Proof.
  assert (Hfirst : ∀ before step after score,
     steps_and_scores self = before ++ step :: after →
     scores step !! score_ref = Some score →
     (∀ later, later ∈ after → scores later !! score_ref = None) →
     getScoreAndStep score_ref self = (score, processing_step_opt step, true)
     ∧ getScore score_ref self = (score, true)).
  { intros before step after score Hsteps Hscore Hafter.
    assert (getScoreAndStep score_ref self
            = (score, processing_step_opt step, true)) as Hscan.
    { unfold getScoreAndStep.
      rewrite Hsteps, reverse_app, reverse_cons, <-(assoc_L (++)).
      rewrite scan_steps_skip; [simpl; by rewrite Hscore|].
      intros later Hlater. by apply Hafter, elem_of_reverse. }
    split; [done|]. unfold getScore. by rewrite Hscan. }
  split_and!; [done|..].
  - intros S1 S2 first second Hsteps _ HS2 _ Hsecond.
    destruct (Hfirst [first] second [] 2.0%float) as [Hscan Hget];
      [done..|by intros ? ?%elem_of_nil|].
    by rewrite Hget, Hscan, HS2.
  - intros Hmiss. unfold getScoreAndStep. apply scan_steps_miss.
    intros step Hstep. by apply Hmiss, elem_of_reverse.
Qed.

(** C4: [A += B] calls [addProcessingStep] on [A] for every entry of [B]
    in the sequence order of [B].  The entries of [A] keep their order,
    each united with the entry of [B] for the same step, where the values
    of [B] win; the entries of [B] whose step [A] lacks follow in the
    order of [B].  With [(S1, T = 1.0)] in [A] and [(S1, T = 9.0)],
    [(S2, T = 3.0)] in [B], [A] becomes [(S1, T = 9.0)], [(S2, T = 3.0)]. *)
Theorem operator_plus_eq_spec self other :
  steps_and_scores (operator_plus_eq self other) =
  steps_and_scores
    (foldl (λ self step, addProcessingStep step self)
       self (steps_and_scores other))
  ∧ (unique_steps (steps_and_scores self) →
     unique_steps (steps_and_scores other) →
     steps_and_scores (operator_plus_eq self other) =
     merge_spec (steps_and_scores other) (steps_and_scores self))
  ∧ (∀ S1 S2 T,
       S1 ≠ S2 →
       steps_and_scores self =
       [mkAppliedProcessingStep (Some S1) {[ T := 1.0%float ]}] →
       steps_and_scores other =
       [mkAppliedProcessingStep (Some S1) {[ T := 9.0%float ]};
        mkAppliedProcessingStep (Some S2) {[ T := 3.0%float ]}] →
       steps_and_scores (operator_plus_eq self other) =
       [mkAppliedProcessingStep (Some S1) {[ T := 9.0%float ]};
        mkAppliedProcessingStep (Some S2) {[ T := 3.0%float ]}]).
Proof.
  assert (Hspec : unique_steps (steps_and_scores self) →
     unique_steps (steps_and_scores other) →
     steps_and_scores (operator_plus_eq self other) =
     merge_spec (steps_and_scores other) (steps_and_scores self)).
  { intros Hc Ho. rewrite operator_plus_eq_steps. by apply merge_loop_spec. }
  split_and!; [apply operator_plus_eq_steps|done|].
  intros S1 S2 T Hne Hself Hother.
  assert (Some S1 ≠ Some S2) as Hkey by congruence.
  rewrite Hspec.
  - rewrite Hself, Hother. unfold merge_spec; simpl.
    rewrite merged_entry_cons_eq, update_scores_eq by done.
    unfold union_scores; simpl.
    rewrite <-insert_union_singleton_l, insert_singleton_eq.
    rewrite !filter_cons, filter_nil; simpl.
    rewrite decide_False by (intros Hnot; apply Hnot; left).
    rewrite decide_True; [done|].
    intros Hin%list_elem_of_singleton. congruence.
  - rewrite Hself. apply NoDup_singleton.
  - rewrite Hother. unfold unique_steps; simpl.
    apply NoDup_cons. split; [|apply NoDup_singleton].
    intros Hin%list_elem_of_singleton. congruence.
Qed.

(** C5: [getScore(T, P)] reads the one entry whose [processing_step_opt]
    is [P], wherever it is in the sequence: the result is [(value, true)]
    when that entry has a value for [T], and [(NaN, false)] when it has
    none or when [P] has no entry.  After [addScore(T, 5.0)] without a
    step, [getScore(T, none)] is [(5.0, true)] and [getScore(T, S_other)]
    is [(NaN, false)] for every step [S_other] that was never added. *)
Theorem getScore_by_step_spec score_ref step_opt self :
  unique_steps (steps_and_scores self) →
  (∀ pos step score,
     steps_and_scores self !! pos = Some step →
     processing_step_opt step = step_opt →
     scores step !! score_ref = Some score →
     getScore_by_step score_ref step_opt self = (score, true))
  ∧ (∀ pos step,
       steps_and_scores self !! pos = Some step →
       processing_step_opt step = step_opt →
       scores step !! score_ref = None →
       getScore_by_step score_ref step_opt self = (quiet_NaN, false))
  ∧ (step_opt ∉ step_keys (steps_and_scores self) →
     getScore_by_step score_ref step_opt self = (quiet_NaN, false))
  ∧ getScore_by_step score_ref None (addScore score_ref 5.0%float None self)
    = (5.0%float, true)
  ∧ (∀ S_other,
       Some S_other ∉ step_keys (steps_and_scores self) →
       getScore_by_step score_ref (Some S_other)
         (addScore score_ref 5.0%float None self)
       = (quiet_NaN, false)).
Proof.
  intros Hc. split_and!.
  - intros pos step score E <- Hscore.
    by rewrite (getScore_by_step_lookup _ _ pos step), Hscore.
  - intros pos step E <- Hscore.
    by rewrite (getScore_by_step_lookup _ _ pos step), Hscore.
  - apply getScore_by_step_absent.
  - by apply getScore_addScore.
  - intros S_other Hother. apply getScore_by_step_absent.
    unfold addScore; simpl. rewrite (addProcessingStep_keys _ _ Hc); simpl.
    rewrite elem_of_app. intros [Hin|Hin]; [done|].
    case_decide; [by apply elem_of_nil in Hin|].
    by apply list_elem_of_singleton in Hin.
Qed.

(** C6: a call of [addProcessingStep], [addScore] or [operator+=] leaves
    the entries that were present in their sequence order, each at its
    position, and puts the entries that were not present after them. *)
Theorem order_stability self :
  unique_steps (steps_and_scores self) →
  (∀ step,
     extends_in_place (steps_and_scores self)
       (steps_and_scores (addProcessingStep step self)))
  ∧ (∀ score_type score step_opt,
       extends_in_place (steps_and_scores self)
         (steps_and_scores (addScore score_type score step_opt self)))
  ∧ (∀ other,
       extends_in_place (steps_and_scores self)
         (steps_and_scores (operator_plus_eq self other))).
Proof.
  intros Hc. split_and!.
  - intros step. by apply addProcessingStep_extends.
  - intros score_type score step_opt. by apply addProcessingStep_extends.
  - intros other. rewrite operator_plus_eq_steps.
    destruct (merge_loop_keys (steps_and_scores other) self Hc)
      as [added Hadded].
    eapply extends_in_place_unique; [|done]. by apply merge_loop_unique.
Qed.

(** C7: after [addScore(T, v1, S)] and then [addScore(T, v2, S)],
    [getScore(T, S)] is [(v2, true)]: the later write of the pair
    overwrites the earlier one. *)
Theorem addScore_overwrite score_type v1 v2 step_opt self :
  unique_steps (steps_and_scores self) →
  getScore_by_step score_type step_opt
    (addScore score_type v2 step_opt (addScore score_type v1 step_opt self))
  = (v2, true).
Proof.
  intros Hc. apply getScore_addScore. by apply addProcessingStep_unique.
Qed.

(** C8: the lookups are total functions with no error result.  For a score
    type that no entry has, [getScore(T)] is [(NaN, false)] and
    [getScoreAndStep(T)] is [(NaN, none, false)]; [getScore(T, P)] is
    [(NaN, false)] when no entry of [P] has [T], be it that [P] has no
    entry or that its entry lacks [T]; the value returned is a NaN; on
    the empty ledger every lookup misses. *)
Theorem lookup_miss score_ref self :
  ((∀ step, step ∈ steps_and_scores self →
            scores step !! score_ref = None) →
   getScore score_ref self = (quiet_NaN, false)
   ∧ getScoreAndStep score_ref self = (quiet_NaN, None, false))
  ∧ (∀ step_opt,
       (∀ step, step ∈ steps_and_scores self →
                processing_step_opt step = step_opt →
                scores step !! score_ref = None) →
       getScore_by_step score_ref step_opt self = (quiet_NaN, false))
  ∧ is_nan quiet_NaN = true
  ∧ (steps_and_scores self = [] →
     getScore score_ref self = (quiet_NaN, false)
     ∧ getScoreAndStep score_ref self = (quiet_NaN, None, false)
     ∧ ∀ step_opt,
         getScore_by_step score_ref step_opt self = (quiet_NaN, false)).
Proof.
  assert (Hmiss : (∀ step, step ∈ steps_and_scores self →
                           scores step !! score_ref = None) →
     getScore score_ref self = (quiet_NaN, false)
     ∧ getScoreAndStep score_ref self = (quiet_NaN, None, false)).
  { intros Hmiss.
    assert (getScoreAndStep score_ref self = (quiet_NaN, None, false)) as Hscan.
    { unfold getScoreAndStep. apply scan_steps_miss.
      intros step Hstep. by apply Hmiss, elem_of_reverse. }
    split; [|done]. unfold getScore. by rewrite Hscan. }
  split_and!; [done| |done|].
  - intros step_opt Hstep. unfold getScore_by_step.
    destruct (find step_opt (steps_and_scores self)) as [[pos step]|] eqn:Hf;
      [|done].
    apply find_Some in Hf as [E Hk]. simpl.
    rewrite (Hstep step); [done| |done]. by eapply list_elem_of_lookup_2.
  - intros Hempty. split_and!.
    + apply Hmiss. rewrite Hempty. by intros ? ?%elem_of_nil.
    + apply Hmiss. rewrite Hempty. by intros ? ?%elem_of_nil.
    + intros step_opt. unfold getScore_by_step. by rewrite Hempty.
Qed.

(** C9: the one-argument [getScore(T)] is [getScoreAndStep(T)] without its
    step reference: it is [(value, found)] exactly when
    [getScoreAndStep(T)] is [(value, s, found)] for some [s]; it is the
    first value for [T] in reverse sequence order, [(NaN, false)] when
    there is none. *)
Theorem getScore_projection score_ref self :
  getScore score_ref self =
  ((getScoreAndStep score_ref self).1.1, (getScoreAndStep score_ref self).2)
  ∧ (∀ value found,
       getScore score_ref self = (value, found) ↔
       ∃ step_opt, getScoreAndStep score_ref self = (value, step_opt, found))
  ∧ getScore score_ref self = getScore_spec score_ref (steps_and_scores self).
Proof.
  split_and!; [done| |apply scan_steps_find].
  intros value found. unfold getScore.
  destruct (getScoreAndStep score_ref self) as [[value' step_opt] found'].
  simpl. split.
  - intros [= -> ->]. by exists step_opt.
  - by intros [step_opt' [= -> _ ->]].
Qed.

(** C10: merging an object whose [steps_and_scores] equals that of [A]
    into [A] leaves the [steps_and_scores] of [A] as it was, also when the
    object merged is [A] itself; and [addProcessingStep(step)] changes
    nothing when the entry of the step exists and has every pair of
    [step.scores] with the same value. *)
Theorem merge_equal_noop self :
  unique_steps (steps_and_scores self) →
  (∀ other,
     steps_and_scores other = steps_and_scores self →
     steps_and_scores (operator_plus_eq self other) = steps_and_scores self)
  ∧ merge_steps_aliased (length (steps_and_scores self)) 0 self = Some self
  ∧ (∀ step pos old,
       steps_and_scores self !! pos = Some old →
       processing_step_opt old = processing_step_opt step →
       (∀ score_type score,
          scores step !! score_type = Some score →
          scores old !! score_type = Some score) →
       addProcessingStep step self = self).
Proof.
  intros Hc. split_and!.
  - intros other Hother.
    by rewrite operator_plus_eq_steps, Hother, merge_loop_noop.
  - by apply merge_steps_aliased_noop.
  - intros step pos old. by apply addProcessingStep_noop.
Qed.

(** ** Further properties of the header *)

(** *** The score map of a step *)

Lemma getScore_by_step_entry_scores score_ref step_opt self :
  getScore_by_step score_ref step_opt self =
  match entry_scores step_opt (steps_and_scores self) with
  | Some recorded =>
      match recorded !! score_ref with
      | Some score => (score, true)
      | None => (quiet_NaN, false)
      end
  | None => (quiet_NaN, false)
  end.
Proof.
  unfold getScore_by_step, entry_scores.
  by destruct (find step_opt (steps_and_scores self)).
Qed.

Lemma entry_scores_lookup c pos step :
  unique_steps c → c !! pos = Some step →
  entry_scores (processing_step_opt step) c = Some (scores step).
Proof.
  intros Hc E. unfold entry_scores. by rewrite (find_unique _ _ _ Hc E).
Qed.

Lemma entry_scores_absent key c :
  key ∉ step_keys c → entry_scores key c = None.
Proof. intros Hf%find_None. unfold entry_scores. by rewrite Hf. Qed.

Lemma entry_scores_cases key c :
  ((key ∉ step_keys c) ∧ entry_scores key c = None)
  ∨ (∃ pos step, c !! pos = Some step ∧ processing_step_opt step = key
                 ∧ entry_scores key c = Some (scores step)).
Proof.
  unfold entry_scores. destruct (find key c) as [[pos step]|] eqn:Hf.
  - right. exists pos, step. apply find_Some in Hf as [E Hk]. done.
  - left. by apply find_None in Hf.
Qed.

Lemma entry_scores_addProcessingStep key step self :
  unique_steps (steps_and_scores self) →
  entry_scores key (steps_and_scores (addProcessingStep step self)) =
  if decide (key = processing_step_opt step)
  then Some (union_scores (scores step)
               (default ∅ (entry_scores key (steps_and_scores self))))
  else entry_scores key (steps_and_scores self).
Proof.
  intros Hc.
  pose proof (addProcessingStep_unique step self Hc) as Hc'.
  destruct (entry_scores_cases (processing_step_opt step)
              (steps_and_scores self))
    as [[Hnew Hnone]|(pos & old & E & Hk & Hsome)].
  - (* the step is appended *)
    rewrite (addProcessingStep_new _ _ Hnew) in Hc' |- *.
    case_decide as Hkey.
    + subst key. rewrite Hnone; simpl.
      rewrite (entry_scores_lookup _ (length (steps_and_scores self)) step);
        [|done|by rewrite lookup_app_r, Nat.sub_diag].
      unfold union_scores. by rewrite (right_id_L ∅ (∪)).
    + destruct (entry_scores_cases key (steps_and_scores self))
        as [[Hk Hn]|(j & other & Ej & Hk & Hs)].
      * rewrite Hn. apply entry_scores_absent.
        unfold step_keys. rewrite fmap_app, elem_of_app; simpl.
        rewrite list_elem_of_singleton. intros [?|?]; done.
      * rewrite Hs, <-Hk. apply (entry_scores_lookup _ j); [done|].
        by apply lookup_app_l_Some.
  - (* the entry of the step is updated *)
    rewrite (addProcessingStep_existing _ _ _ _ Hc E Hk) in Hc' |- *.
    assert (pos < length (steps_and_scores self)) by (by eapply lookup_lt_Some).
    case_decide as Hkey.
    + subst key. rewrite Hsome; simpl.
      rewrite <-update_scores_scores, <-Hk.
      apply (entry_scores_lookup _ pos (update_scores step old)); [done|].
      by apply list_lookup_insert_eq.
    + destruct (entry_scores_cases key (steps_and_scores self))
        as [[Hnk Hn]|(j & other & Ej & Hkj & Hs)].
      * rewrite Hn. apply entry_scores_absent.
        by rewrite (step_keys_insert _ _ old).
      * rewrite Hs, <-Hkj. apply (entry_scores_lookup _ j); [done|].
        rewrite list_lookup_insert_ne; [done|].
        intros ->. rewrite E in Ej. injection Ej as ->. congruence.
Qed.

Lemma entry_scores_cons key step c :
  entry_scores key (step :: c) =
  if decide (processing_step_opt step = key) then Some (scores step)
  else entry_scores key c.
Proof.
  unfold entry_scores, find; simpl. case_decide; [done|].
  by destruct (list_find _ c) as [[]|].
Qed.

Lemma entry_scores_merge_loop key (c : AppliedProcessingSteps) self :
  unique_steps (steps_and_scores self) → unique_steps c →
  entry_scores key
    (steps_and_scores
       (foldl (λ self step, addProcessingStep step self) self c)) =
  match entry_scores key c with
  | Some merged =>
      Some (union_scores merged
              (default ∅ (entry_scores key (steps_and_scores self))))
  | None => entry_scores key (steps_and_scores self)
  end.
Proof.
  revert self. induction c as [|step c IH]; intros self Hc Ho; [done|].
  apply NoDup_cons in Ho as [Hstep Ho]. fold (step_keys c) in Hstep.
  simpl. rewrite IH by (done || by apply addProcessingStep_unique).
  rewrite entry_scores_cons, (entry_scores_addProcessingStep _ _ _ Hc).
  destruct (decide (processing_step_opt step = key)) as [<-|Hne].
  - rewrite decide_True by done. by rewrite entry_scores_absent.
  - by rewrite decide_False by done.
Qed.

Lemma getScore_by_step_found score_ref step_opt self :
  (getScore_by_step score_ref step_opt self).2 = true ↔
  ∃ recorded,
    entry_scores step_opt (steps_and_scores self) = Some recorded
    ∧ is_Some (recorded !! score_ref).
Proof.
  rewrite getScore_by_step_entry_scores.
  destruct (entry_scores _ _) as [recorded|]; simpl.
  - destruct (recorded !! score_ref) eqn:E; simpl.
    + split; [|done]. intros _. exists recorded. by rewrite E.
    + split; [done|]. intros (? & [= <-] & Hs). rewrite E in Hs.
      by destruct Hs.
  - split; [done|]. by intros (? & ? & _).
Qed.

(** *** Objects and their steps *)

Lemma ScoredProcessingResult_eq self1 self2 :
  meta_info self1 = meta_info self2 →
  steps_and_scores self1 = steps_and_scores self2 →
  self1 = self2.
Proof. destruct self1, self2; simpl. by intros -> ->. Qed.

Lemma addProcessingStep_steps_ext step self1 self2 :
  steps_and_scores self1 = steps_and_scores self2 →
  steps_and_scores (addProcessingStep step self1) =
  steps_and_scores (addProcessingStep step self2).
Proof.
  intros Heq. unfold addProcessingStep. rewrite Heq.
  by destruct (find _ _).
Qed.

Lemma merge_loop_steps_ext (c : AppliedProcessingSteps) self1 self2 :
  steps_and_scores self1 = steps_and_scores self2 →
  steps_and_scores (foldl (λ self step, addProcessingStep step self) self1 c)
  = steps_and_scores
      (foldl (λ self step, addProcessingStep step self) self2 c).
Proof.
  revert self1 self2. induction c as [|step c IH]; intros self1 self2 Heq;
    [done|].
  simpl. by apply IH, addProcessingStep_steps_ext.
Qed.

Lemma merge_loop_meta_info (c : AppliedProcessingSteps) self :
  meta_info (foldl (λ self step, addProcessingStep step self) self c)
  = meta_info self.
Proof.
  revert self. induction c as [|step c IH]; intros self; [done|].
  simpl. by rewrite IH, addProcessingStep_meta_info.
Qed.



(** *** Two calls of addProcessingStep *)

Lemma addProcessingStep_twice step1 step2 self :
  unique_steps (steps_and_scores self) →
  processing_step_opt step2 = processing_step_opt step1 →
  addProcessingStep step2 (addProcessingStep step1 self) =
  addProcessingStep
    {| processing_step_opt := processing_step_opt step1;
       scores := union_scores (scores step2) (scores step1) |} self.
Proof.
  intros Hc Hk.
  pose proof (addProcessingStep_unique step1 self Hc) as Hc1.
  apply ScoredProcessingResult_eq;
    [by rewrite !addProcessingStep_meta_info|].
  destruct (decide (processing_step_opt step1
                    ∈ step_keys (steps_and_scores self))) as [Hin|Hnew].
  - destruct (find_is_Some _ _ Hin) as [[pos old] Hf].
    apply find_Some in Hf as [E Hold].
    assert (pos < length (steps_and_scores self))
      by (by eapply lookup_lt_Some).
    pose proof (addProcessingStep_existing step1 self pos old Hc E Hold)
      as Hs1.
    rewrite (addProcessingStep_existing step2 (addProcessingStep step1 self)
               pos (update_scores step1 old) Hc1);
      [|by rewrite Hs1; apply list_lookup_insert_eq|by rewrite Hk].
    rewrite Hs1, (addProcessingStep_existing _ self pos old) by done.
    rewrite list_insert_insert_eq. f_equal.
    rewrite !update_scores_eq; simpl. unfold union_scores.
    by rewrite (assoc_L (∪)).
  - pose proof (addProcessingStep_new step1 self Hnew) as Hs1.
    rewrite (addProcessingStep_existing step2 (addProcessingStep step1 self)
               (length (steps_and_scores self)) step1 Hc1);
      [|by rewrite Hs1, lookup_app_r, Nat.sub_diag|by rewrite Hk].
    rewrite Hs1, (addProcessingStep_new _ self) by done.
    rewrite insert_app_r_alt, Nat.sub_diag by lia; simpl.
    by rewrite update_scores_eq.
Qed.

Lemma addProcessingStep_comm_present step1 step2 self :
  unique_steps (steps_and_scores self) →
  processing_step_opt step1 ≠ processing_step_opt step2 →
  processing_step_opt step1 ∈ step_keys (steps_and_scores self) →
  addProcessingStep step1 (addProcessingStep step2 self) =
  addProcessingStep step2 (addProcessingStep step1 self).
Proof.
  intros Hc Hne Hin.
  pose proof (addProcessingStep_unique step1 self Hc) as Hc1.
  pose proof (addProcessingStep_unique step2 self Hc) as Hc2.
  apply ScoredProcessingResult_eq;
    [by rewrite !addProcessingStep_meta_info|].
  destruct (find_is_Some _ _ Hin) as [[pos1 old1] Hf].
  apply find_Some in Hf as [E1 Hk1].
  assert (pos1 < length (steps_and_scores self))
    by (by eapply lookup_lt_Some).
  assert (step_keys (steps_and_scores (addProcessingStep step1 self))
          = step_keys (steps_and_scores self)) as Hkeys1.
  { rewrite (addProcessingStep_existing _ _ _ _ Hc E1 Hk1).
    by apply (step_keys_insert _ _ old1). }
  destruct (decide (processing_step_opt step2
                    ∈ step_keys (steps_and_scores self))) as [Hin2|Hnew2].
  - destruct (find_is_Some _ _ Hin2) as [[pos2 old2] Hf].
    apply find_Some in Hf as [E2 Hk2].
    assert (pos1 ≠ pos2) by (intros ->; congruence).
    pose proof (addProcessingStep_existing step1 self pos1 old1 Hc E1 Hk1)
      as Hs1.
    pose proof (addProcessingStep_existing step2 self pos2 old2 Hc E2 Hk2)
      as Hs2.
    rewrite (addProcessingStep_existing step1 (addProcessingStep step2 self)
               pos1 old1 Hc2);
      [|by rewrite Hs2, list_lookup_insert_ne|done].
    rewrite (addProcessingStep_existing step2 (addProcessingStep step1 self)
               pos2 old2 Hc1);
      [|by rewrite Hs1, list_lookup_insert_ne|done].
    rewrite Hs1, Hs2. by apply list_insert_insert_ne.
  - pose proof (addProcessingStep_existing step1 self pos1 old1 Hc E1 Hk1)
      as Hs1.
    pose proof (addProcessingStep_new step2 self Hnew2) as Hs2.
    rewrite (addProcessingStep_existing step1 (addProcessingStep step2 self)
               pos1 old1 Hc2);
      [|by rewrite Hs2; apply lookup_app_l_Some|done].
    rewrite (addProcessingStep_new step2 (addProcessingStep step1 self))
      by (by rewrite Hkeys1).
    rewrite Hs1, Hs2. by rewrite insert_app_l.
Qed.

(** *** The merge loop and addProcessingStep *)




(** *** Steps whose scores are already recorded *)

Lemma addProcessingStep_subsumed step self :
  unique_steps (steps_and_scores self) →
  (∃ recorded,
     entry_scores (processing_step_opt step) (steps_and_scores self)
     = Some recorded
     ∧ scores step ⊆ recorded) →
  addProcessingStep step self = self.
Proof.
  intros Hc (recorded & Hrec & Hsub).
  destruct (entry_scores_cases (processing_step_opt step)
              (steps_and_scores self))
    as [[_ Hn]|(pos & old & E & Hk & Hs)]; [congruence|].
  rewrite Hs in Hrec. injection Hrec as <-.
  apply (addProcessingStep_noop _ _ pos old); [done..|].
  by apply map_subseteq_spec.
Qed.

Lemma merge_loop_subsumed (c : AppliedProcessingSteps) self :
  unique_steps (steps_and_scores self) →
  (∀ step, step ∈ c →
     ∃ recorded,
       entry_scores (processing_step_opt step) (steps_and_scores self)
       = Some recorded
       ∧ scores step ⊆ recorded) →
  foldl (λ self step, addProcessingStep step self) self c = self.
Proof.
  intros Hc. induction c as [|step c IH]; intros Hsub; [done|]. simpl.
  rewrite addProcessingStep_subsumed by (done || apply Hsub; left).
  apply IH. intros later Hlater. apply Hsub. by right.
Qed.

Lemma merge_loop_twice (c : AppliedProcessingSteps) self :
  unique_steps (steps_and_scores self) → unique_steps c →
  foldl (λ self step, addProcessingStep step self)
    (foldl (λ self step, addProcessingStep step self) self c) c
  = foldl (λ self step, addProcessingStep step self) self c.
Proof.
  intros Hc Ho. apply merge_loop_subsumed; [by apply merge_loop_unique|].
  intros step [pos E]%list_elem_of_lookup_1.
  rewrite entry_scores_merge_loop by done.
  rewrite (entry_scores_lookup _ pos step) by done.
  eexists. split; [done|]. apply map_union_subseteq_l.
Qed.

(** *** Direct lookup after a call *)

Lemma getScore_by_step_addProcessingStep score_ref step_opt step self :
  unique_steps (steps_and_scores self) →
  getScore_by_step score_ref step_opt (addProcessingStep step self) =
  if decide (step_opt = processing_step_opt step)
  then match scores step !! score_ref with
       | Some score => (score, true)
       | None => getScore_by_step score_ref step_opt self
       end
  else getScore_by_step score_ref step_opt self.
Proof.
  intros Hc. rewrite !getScore_by_step_entry_scores.
  rewrite (entry_scores_addProcessingStep _ _ _ Hc).
  case_decide; [|done]. rewrite union_scores_lookup.
  destruct (scores step !! score_ref); [done|].
  by destruct (entry_scores _ _).
Qed.

Lemma getScore_by_step_merge_loop score_ref step_opt
    (c : AppliedProcessingSteps) self other :
  unique_steps (steps_and_scores self) →
  unique_steps (steps_and_scores other) →
  getScore_by_step score_ref step_opt
    (foldl (λ self step, addProcessingStep step self)
       self (steps_and_scores other)) =
  if (getScore_by_step score_ref step_opt other).2
  then getScore_by_step score_ref step_opt other
  else getScore_by_step score_ref step_opt self.
Proof.
  intros Hc Ho. rewrite !getScore_by_step_entry_scores.
  rewrite (entry_scores_merge_loop _ _ _ Hc Ho).
  destruct (entry_scores step_opt (steps_and_scores other)) as [merged|];
    [|done].
  rewrite union_scores_lookup.
  destruct (merged !! score_ref); [done|]. simpl.
  by destruct (entry_scores _ _).
Qed.

Lemma addProcessingStep_found score_ref step_opt step self :
  unique_steps (steps_and_scores self) →
  (getScore_by_step score_ref step_opt self).2 = true →
  (getScore_by_step score_ref step_opt (addProcessingStep step self)).2 = true.
Proof.
  intros Hc Hfound. rewrite (getScore_by_step_addProcessingStep _ _ _ _ Hc).
  case_decide; [|done]. by destruct (scores step !! score_ref).
Qed.

Lemma merge_loop_found score_ref step_opt (c : AppliedProcessingSteps) self :
  unique_steps (steps_and_scores self) →
  (getScore_by_step score_ref step_opt self).2 = true →
  (getScore_by_step score_ref step_opt
     (foldl (λ self step, addProcessingStep step self) self c)).2 = true.
Proof.
  revert self. induction c as [|step c IH]; intros self Hc Hfound; [done|].
  simpl. apply IH; [by apply addProcessingStep_unique|].
  by apply addProcessingStep_found.
Qed.

Lemma getScore_by_step_steps_ext score_ref step_opt self1 self2 :
  steps_and_scores self1 = steps_and_scores self2 →
  getScore_by_step score_ref step_opt self1
  = getScore_by_step score_ref step_opt self2.
Proof. unfold getScore_by_step. by intros ->. Qed.

(** *** The reverse scan, continued *)

Lemma scan_steps_found score_ref (todo : list AppliedProcessingStep) :
  (scan_steps score_ref todo).2 = true ↔
  ∃ step, step ∈ todo ∧ is_Some (scores step !! score_ref).
Proof.
  induction todo as [|step todo IH]; simpl.
  - split; [done|]. by intros (? & ?%elem_of_nil & _).
  - destruct (scores step !! score_ref) as [score|] eqn:E; simpl.
    + split; [|done]. intros _. exists step. split; [left|by rewrite E].
    + rewrite IH. split.
      * intros (later & Hin & Hs). exists later. split; [by right|done].
      * intros (later & Hin & Hs). exists later.
        apply elem_of_cons in Hin as [->|Hin]; [|done].
        rewrite E in Hs. by destruct Hs.
Qed.

Lemma scan_steps_head score_ref step (todo : list AppliedProcessingStep)
    score :
  scores step !! score_ref = Some score →
  scan_steps score_ref (step :: todo)
  = (score, processing_step_opt step, true).
Proof. intros Hs. simpl. by rewrite Hs. Qed.

Lemma scan_steps_hit score_ref (first rest : list AppliedProcessingStep) :
  (∃ step, step ∈ first ∧ is_Some (scores step !! score_ref)) →
  scan_steps score_ref (first ++ rest) = scan_steps score_ref first.
Proof.
  induction first as [|step first IH]; simpl.
  - by intros (? & ?%elem_of_nil & _).
  - intros (later & Hin & Hs).
    destruct (scores step !! score_ref) as [score|] eqn:E; [done|].
    apply IH. exists later. split; [|done].
    apply elem_of_cons in Hin as [->|Hin]; [|done].
    rewrite E in Hs. by destruct Hs.
Qed.

Lemma scan_steps_true score_ref (todo : list AppliedProcessingStep)
    score step_opt :
  scan_steps score_ref todo = (score, step_opt, true) →
  ∃ step, step ∈ todo ∧ processing_step_opt step = step_opt
          ∧ scores step !! score_ref = Some score.
Proof.
  induction todo as [|step todo IH]; simpl; [done|].
  destruct (scores step !! score_ref) as [found|] eqn:E.
  - intros [= <- <-]. exists step. split; [left|done].
  - intros (later & Hin & Hl)%IH. exists later. split; [by right|done].
Qed.

Lemma scan_steps_false score_ref (todo : list AppliedProcessingStep) :
  (scan_steps score_ref todo).2 = false →
  scan_steps score_ref todo = (quiet_NaN, None, false).
Proof.
  induction todo as [|step todo IH]; simpl; [done|].
  by destruct (scores step !! score_ref).
Qed.

Lemma getScore_found_by_step score_ref self :
  unique_steps (steps_and_scores self) →
  (getScore score_ref self).2 = true ↔
  ∃ step_opt, (getScore_by_step score_ref step_opt self).2 = true.
Proof.
  intros Hc. unfold getScore, getScoreAndStep; simpl.
  rewrite scan_steps_found. split.
  - intros (step & Hin & Hs). rewrite elem_of_reverse in Hin.
    apply list_elem_of_lookup_1 in Hin as [pos E].
    exists (processing_step_opt step).
    rewrite (getScore_by_step_lookup _ _ pos step Hc E).
    destruct Hs as [score Hs]. by rewrite Hs.
  - intros (step_opt & (recorded & Hrec & Hs)%getScore_by_step_found).
    destruct (entry_scores_cases step_opt (steps_and_scores self))
      as [[_ Hn]|(pos & step & E & Hk & Hsome)]; [congruence|].
    exists step. split.
    + apply elem_of_reverse. by eapply list_elem_of_lookup_2.
    + rewrite Hsome in Hrec. by injection Hrec as ->.
Qed.

(** *** addScore on an entry inside the sequence *)

Lemma addScore_middle score_type score
    (before after : AppliedProcessingSteps) old self :
  unique_steps (steps_and_scores self) →
  steps_and_scores self = before ++ old :: after →
  steps_and_scores
    (addScore score_type score (processing_step_opt old) self) =
  before
  ++ update_scores
       (mkAppliedProcessingStep (processing_step_opt old)
          (<[score_type := score]> ∅)) old
  :: after.
Proof.
  intros Hc Hsteps. unfold addScore; simpl.
  rewrite (addProcessingStep_existing _ _ (length before) old);
    [|done| |done].
  - rewrite Hsteps, insert_app_r_alt, Nat.sub_diag by lia. done.
  - rewrite Hsteps. apply list_lookup_middle. done.
Qed.

Lemma merge_spec_nil c : merge_spec c [] = c.
Proof.
  unfold merge_spec; simpl. induction c as [|step c IH]; [done|].
  rewrite filter_cons, decide_True by (by intros ?%elem_of_nil).
  by rewrite IH.
Qed.

(** *** Equality of doubles *)

Lemma option_relation_eqb_refl (recorded : option double) :
  option_relation (λ score1 score2, PrimFloat.eqb score1 score2 = true)
    (λ _, False) (λ _, False) recorded recorded
  ↔ ∀ score, recorded = Some score → is_nan score = false.
Proof.
  destruct recorded as [score|]; simpl; [|done]. unfold is_nan. split.
  - intros Heq ? [= <-]. by rewrite Heq.
  - intros Hnan. specialize (Hnan score eq_refl).
    by apply negb_false_iff in Hnan.
Qed.

Lemma option_relation_eqb_is_Some (recorded1 recorded2 : option double) :
  option_relation (λ score1 score2, PrimFloat.eqb score1 score2 = true)
    (λ _, False) (λ _, False) recorded1 recorded2 →
  is_Some recorded1 ↔ is_Some recorded2.
Proof.
  destruct recorded1, recorded2; simpl; done || (intros _; split; eauto).
Qed.

(** ** Further properties *)

(** X1: calling [addProcessingStep] a second time with the same step
    changes nothing. *)
Theorem addProcessingStep_idempotent step self :
  unique_steps (steps_and_scores self) →
  addProcessingStep step (addProcessingStep step self)
  = addProcessingStep step self.
Proof.
  intros Hc. rewrite addProcessingStep_twice by done.
  unfold union_scores. rewrite (idemp_L (∪)). by destruct step.
Qed.

(** X2: the direct lookup after [addProcessingStep(step)]: for the step of
    [step] and a score type that [step.scores] has, the value of
    [step.scores]; for every other step and score type, the result that
    the lookup had before the call. *)
Theorem getScore_after_addProcessingStep score_ref step_opt step self :
  unique_steps (steps_and_scores self) →
  getScore_by_step score_ref step_opt (addProcessingStep step self) =
  if decide (step_opt = processing_step_opt step)
  then match scores step !! score_ref with
       | Some score => (score, true)
       | None => getScore_by_step score_ref step_opt self
       end
  else getScore_by_step score_ref step_opt self.
Proof. apply getScore_by_step_addProcessingStep. Qed.

(** X3: two calls of [addProcessingStep] for the same step are one call
    with the two score maps united, the values of the second call
    winning. *)
Theorem addProcessingStep_same_step step1 step2 self :
  unique_steps (steps_and_scores self) →
  processing_step_opt step2 = processing_step_opt step1 →
  addProcessingStep step2 (addProcessingStep step1 self) =
  addProcessingStep
    {| processing_step_opt := processing_step_opt step1;
       scores := scores step2 ∪ scores step1 |} self.
Proof. apply addProcessingStep_twice. Qed.

(** X4: two calls of [addProcessingStep] for different steps can be
    swapped exactly when at least one of the two steps already has an
    entry; when both are new, the order of the calls is the order of the
    two new entries. *)
Theorem addProcessingStep_commute step1 step2 self :
  unique_steps (steps_and_scores self) →
  processing_step_opt step1 ≠ processing_step_opt step2 →
  addProcessingStep step1 (addProcessingStep step2 self)
  = addProcessingStep step2 (addProcessingStep step1 self)
  ↔ processing_step_opt step1 ∈ step_keys (steps_and_scores self)
    ∨ processing_step_opt step2 ∈ step_keys (steps_and_scores self).
Proof.
  intros Hc Hne. split.
  - intros Heq.
    destruct (decide (processing_step_opt step1
                      ∈ step_keys (steps_and_scores self))) as [|Hnew1];
      [by left|].
    destruct (decide (processing_step_opt step2
                      ∈ step_keys (steps_and_scores self))) as [|Hnew2];
      [by right|].
    exfalso. apply (f_equal steps_and_scores) in Heq.
    rewrite (addProcessingStep_new step1 (addProcessingStep step2 self))
      in Heq.
    + rewrite (addProcessingStep_new step2 (addProcessingStep step1 self))
        in Heq.
      * rewrite !addProcessingStep_new, <-!(assoc_L (++)) in Heq by done.
        apply app_inv_head in Heq. injection Heq as -> _. done.
      * rewrite addProcessingStep_new by done. unfold step_keys.
        rewrite fmap_app, elem_of_app; simpl.
        rewrite list_elem_of_singleton. intros [?|?]; done.
    + rewrite addProcessingStep_new by done. unfold step_keys.
      rewrite fmap_app, elem_of_app; simpl.
      rewrite list_elem_of_singleton. intros [?|?]; done.
  - intros [Hin|Hin].
    + by apply addProcessingStep_comm_present.
    + symmetry. by apply addProcessingStep_comm_present.
Qed.

(** X5: [addProcessingStep(step_ref)] with the default empty score map
    records the step at most once, at the end of the sequence, and no
    score lookup sees a difference. *)
Theorem addProcessingStep_ref_no_scores step_ref self :
  unique_steps (steps_and_scores self) →
  step_keys (steps_and_scores (addProcessingStep_ref step_ref ∅ self)) =
  step_keys (steps_and_scores self)
  ++ (if decide (Some step_ref ∈ step_keys (steps_and_scores self))
      then [] else [Some step_ref])
  ∧ (∀ score_ref step_opt,
       getScore_by_step score_ref step_opt
         (addProcessingStep_ref step_ref ∅ self)
       = getScore_by_step score_ref step_opt self)
  ∧ (∀ score_ref,
       getScoreAndStep score_ref (addProcessingStep_ref step_ref ∅ self)
       = getScoreAndStep score_ref self).
Proof.
  intros Hc. unfold addProcessingStep_ref. split_and!.
  - by rewrite addProcessingStep_keys.
  - intros score_ref step_opt.
    rewrite getScore_by_step_addProcessingStep by done; simpl.
    rewrite lookup_empty. by case_decide.
  - intros score_ref.
    destruct (decide (Some step_ref ∈ step_keys (steps_and_scores self)))
      as [Hin|Hnew].
    + destruct (find_is_Some _ _ Hin) as [[pos old] Hf].
      apply find_Some in Hf as [E Hk].
      by rewrite (addProcessingStep_noop _ self pos old).
    + unfold getScoreAndStep. rewrite addProcessingStep_new by done.
      rewrite reverse_app; simpl. by rewrite lookup_empty.
Qed.

(** X6: [addScore(T, v, P)] changes the direct lookup of no other pair of
    a score type and a step. *)
Theorem addScore_frame score_type score step_opt score_ref other_opt self :
  unique_steps (steps_and_scores self) →
  other_opt ≠ step_opt ∨ score_ref ≠ score_type →
  getScore_by_step score_ref other_opt
    (addScore score_type score step_opt self)
  = getScore_by_step score_ref other_opt self.
Proof.
  intros Hc Hne. unfold addScore; simpl.
  rewrite getScore_by_step_addProcessingStep by done; simpl.
  case_decide as Hk; [|done].
  destruct Hne as [?|Hne]; [done|].
  by rewrite lookup_insert_ne, lookup_empty.
Qed.

(** X7: the scanning lookup after [addScore(T, v, P)].  When [P] is new,
    or when no entry behind the entry of [P] has [T], the result is
    [(v, P, true)]; when an entry behind the entry of [P] has [T], the
    result is what it was before the call. *)
Theorem getScoreAndStep_after_addScore score_type score step_opt self :
  unique_steps (steps_and_scores self) →
  (step_opt ∉ step_keys (steps_and_scores self) →
   getScoreAndStep score_type (addScore score_type score step_opt self)
   = (score, step_opt, true))
  ∧ (∀ before old after,
       steps_and_scores self = before ++ old :: after →
       processing_step_opt old = step_opt →
       ((∀ later, later ∈ after → scores later !! score_type = None) →
        getScoreAndStep score_type (addScore score_type score step_opt self)
        = (score, step_opt, true))
       ∧ ((∃ later, later ∈ after ∧ is_Some (scores later !! score_type)) →
          getScoreAndStep score_type
            (addScore score_type score step_opt self)
          = getScoreAndStep score_type self)).
Proof.
  intros Hc. split.
  - intros Hnew. unfold getScoreAndStep, addScore; simpl.
    rewrite addProcessingStep_new by done.
    rewrite reverse_app; simpl. by rewrite lookup_insert_eq.
  - intros before old after Hsteps <-. unfold getScoreAndStep.
    rewrite (addScore_middle _ _ before after old self Hc Hsteps), Hsteps.
    rewrite !reverse_app, !reverse_cons, <-!(assoc_L (++)), <-!cons_middle.
    split.
    + intros Hafter. rewrite scan_steps_skip.
      * rewrite (scan_steps_head _ _ _ score); [done|].
        rewrite update_scores_scores, union_scores_lookup; simpl.
        by rewrite lookup_insert_eq.
      * intros later Hlater. by apply Hafter, elem_of_reverse.
    + intros (later & Hlater & Hs).
      rewrite !scan_steps_hit; [done|..];
        exists later; by rewrite elem_of_reverse.
Qed.

(** X8: when [getScoreAndStep(T)] finds a value, [getScore(T, P)] with the
    step [P] it returns finds the same value. *)
Theorem getScoreAndStep_getScore score_ref score step_opt self :
  unique_steps (steps_and_scores self) →
  getScoreAndStep score_ref self = (score, step_opt, true) →
  getScore_by_step score_ref step_opt self = (score, true).
Proof.
  intros Hc (step & Hin & <- & Hs)%scan_steps_true.
  rewrite elem_of_reverse in Hin.
  apply list_elem_of_lookup_1 in Hin as [pos E].
  by rewrite (getScore_by_step_lookup _ _ pos step Hc E), Hs.
Qed.

(** X9: [getScore(T)] finds a value exactly when [getScore(T, P)] finds
    one for some step [P]; when [getScoreAndStep(T)] finds none, its
    result is [(NaN, none, false)]. *)
Theorem getScore_found score_ref self :
  unique_steps (steps_and_scores self) →
  ((getScore score_ref self).2 = true ↔
   ∃ step_opt, (getScore_by_step score_ref step_opt self).2 = true)
  ∧ ((getScoreAndStep score_ref self).2 = false →
     getScoreAndStep score_ref self = (quiet_NaN, None, false)).
Proof.
  intros Hc. split; [by apply getScore_found_by_step|].
  apply scan_steps_false.
Qed.

(** X10: merging an object without steps changes no step, and merging
    into an object without steps copies the steps of the other object. *)
Theorem operator_plus_eq_empty self other :
  (steps_and_scores other = [] →
   steps_and_scores (operator_plus_eq self other) = steps_and_scores self)
  ∧ (steps_and_scores self = [] →
     unique_steps (steps_and_scores other) →
     steps_and_scores (operator_plus_eq self other)
     = steps_and_scores other).
Proof.
  split.
  - intros Hother. by rewrite operator_plus_eq_steps, Hother.
  - intros Hself Ho. rewrite operator_plus_eq_steps, merge_loop_spec.
    + rewrite Hself. apply merge_spec_nil.
    + rewrite Hself. apply NoDup_nil_2.
    + done.
Qed.

(** X11: merging the same object a second time changes no step. *)
Theorem operator_plus_eq_idempotent self other :
  unique_steps (steps_and_scores self) →
  unique_steps (steps_and_scores other) →
  steps_and_scores (operator_plus_eq (operator_plus_eq self other) other)
  = steps_and_scores (operator_plus_eq self other).
Proof.
  intros Hc Ho. rewrite (operator_plus_eq_steps other (operator_plus_eq _ _)).
  rewrite (merge_loop_steps_ext _ _
             (foldl (λ self step, addProcessingStep step self) self
                (steps_and_scores other)))
    by apply operator_plus_eq_steps.
  by rewrite merge_loop_twice, operator_plus_eq_steps.
Qed.

(** X12: the direct lookup after [self += other] is the lookup in [other]
    when that finds a value, and the lookup in [self] otherwise. *)
Theorem getScore_after_operator_plus_eq score_ref step_opt self other :
  unique_steps (steps_and_scores self) →
  unique_steps (steps_and_scores other) →
  getScore_by_step score_ref step_opt (operator_plus_eq self other) =
  if (getScore_by_step score_ref step_opt other).2
  then getScore_by_step score_ref step_opt other
  else getScore_by_step score_ref step_opt self.
Proof.
  intros Hc Ho.
  rewrite <-(getScore_by_step_merge_loop _ _ (steps_and_scores other))
    by done.
  apply getScore_by_step_steps_ext, operator_plus_eq_steps.
Qed.


(** X14: no call removes a score: a lookup that finds a value, direct or
    scanning, still finds one after [addProcessingStep], [addScore] and
    [operator+=]. *)
Theorem scores_are_kept score_ref self :
  unique_steps (steps_and_scores self) →
  (∀ step_opt,
     (getScore_by_step score_ref step_opt self).2 = true →
     (∀ step,
        (getScore_by_step score_ref step_opt
           (addProcessingStep step self)).2 = true)
     ∧ (∀ score_type score other_opt,
          (getScore_by_step score_ref step_opt
             (addScore score_type score other_opt self)).2 = true)
     ∧ (∀ other,
          (getScore_by_step score_ref step_opt
             (operator_plus_eq self other)).2 = true))
  ∧ ((getScore score_ref self).2 = true →
     (∀ step, (getScore score_ref (addProcessingStep step self)).2 = true)
     ∧ (∀ score_type score other_opt,
          (getScore score_ref
             (addScore score_type score other_opt self)).2 = true)
     ∧ (∀ other,
          (getScore score_ref (operator_plus_eq self other)).2 = true)).
Proof.
  intros Hc.
  assert (Hdirect : ∀ step_opt,
     (getScore_by_step score_ref step_opt self).2 = true →
     (∀ step,
        (getScore_by_step score_ref step_opt
           (addProcessingStep step self)).2 = true)
     ∧ (∀ score_type score other_opt,
          (getScore_by_step score_ref step_opt
             (addScore score_type score other_opt self)).2 = true)
     ∧ (∀ other,
          (getScore_by_step score_ref step_opt
             (operator_plus_eq self other)).2 = true)).
  { intros step_opt Hfound. split_and!.
    - intros step. by apply addProcessingStep_found.
    - intros score_type score other_opt. by apply addProcessingStep_found.
    - intros other.
      rewrite (getScore_by_step_steps_ext _ _ _ _
                 (operator_plus_eq_steps other self)).
      by apply merge_loop_found. }
  split; [done|].
  intros (step_opt & Hfound)%getScore_found_by_step; [|done].
  destruct (Hdirect step_opt Hfound) as (Hstep & Hscore & Hmerge).
  split_and!.
  - intros step. apply getScore_found_by_step;
      [by apply addProcessingStep_unique|by exists step_opt].
  - intros score_type score other_opt. apply getScore_found_by_step;
      [by apply addProcessingStep_unique|by exists step_opt].
  - intros other. apply getScore_found_by_step; [|by exists step_opt].
    rewrite operator_plus_eq_steps. by apply merge_loop_unique.
Qed.

(** X15: [operator==] holds between a step and itself exactly when none
    of its scores is a NaN; steps that it holds equal have the same step
    reference and scores for the same score types. *)
Theorem AppliedProcessingStep_eq_spec step :
  (AppliedProcessingStep_eq step step = true ↔
   ∀ score_type score,
     scores step !! score_type = Some score → is_nan score = false)
  ∧ (∀ step2 : AppliedProcessingStep,
       AppliedProcessingStep_eq step step2 = true →
       processing_step_opt step = processing_step_opt step2
       ∧ ∀ score_type,
           is_Some (scores step !! score_type)
           ↔ is_Some (scores step2 !! score_type)).
Proof.
  unfold AppliedProcessingStep_eq. split.
  - rewrite bool_decide_eq_true_2 by done. simpl.
    rewrite bool_decide_eq_true. unfold map_relation. split.
    + intros Hrel score_type score Hs.
      by apply (proj1 (option_relation_eqb_refl _) (Hrel score_type)).
    + intros Hnan score_type. apply option_relation_eqb_refl.
      intros score Hs. by apply (Hnan score_type).
  - intros step2 [Hk Hrel]%andb_prop.
    apply bool_decide_eq_true in Hk, Hrel. split; [done|].
    intros score_type. apply option_relation_eqb_is_Some, Hrel.
Qed.

End ScoredProcessingResult.

Arguments AppliedProcessingStep : clear implicits.
Arguments AppliedProcessingStep _ _ {_ _}.
Arguments ScoredProcessingResult : clear implicits.
Arguments ScoredProcessingResult _ _ {_ _} _.


(** * The properties on concrete objects *)

Lemma reachable_unique_steps_witness :
  let self : ScoredProcessingResult positive positive unit :=
    addScore 7%positive 2.0%float (Some 2%positive)
      (addScore 7%positive 1.0%float None empty_result) in
  reachable self
  ∧ unique_steps (steps_and_scores self)
  ∧ step_keys (steps_and_scores self) = [None; Some 2%positive].
Proof.
  intros self.
  assert (Hself : reachable self)
    by (do 2 apply reachable_addScore; constructor).
  split; [exact Hself|].
  split; [exact (proj1 (reachable_unique_steps self Hself))|reflexivity].
Defined.

Lemma addProcessingStep_spec_witness :
  let self : ScoredProcessingResult positive positive unit :=
    addScore 7%positive 1.0%float (Some 1%positive) empty_result in
  let fresh : AppliedProcessingStep positive positive :=
    mkAppliedProcessingStep None {[ 7%positive := 2.0%float ]} in
  let step : AppliedProcessingStep positive positive :=
    mkAppliedProcessingStep (Some 1%positive) {[ 8%positive := 3.0%float ]} in
  unique_steps (steps_and_scores self)
  ∧ steps_and_scores (addProcessingStep fresh self) =
    steps_and_scores self ++ [fresh]
  ∧ ∃ new,
      steps_and_scores (addProcessingStep step self) = [new]
      ∧ processing_step_opt new = Some 1%positive
      ∧ scores new !! 8%positive = Some 3.0%float
      ∧ scores new !! 7%positive = Some 1.0%float.
Proof.
  intros self fresh step.
  assert (Hc : unique_steps (steps_and_scores self)) by compute_done.
  split_and!; [exact Hc|..].
  - apply (addProcessingStep_spec fresh self Hc). compute_done.
  - destruct (addProcessingStep_spec step self Hc) as [_ Hold].
    edestruct (Hold 0) as (new & Hsteps & Hkey & Hnew & Hkeep);
      [reflexivity..|].
    exists new. split_and!.
    + exact Hsteps.
    + exact Hkey.
    + apply Hnew. reflexivity.
    + rewrite Hkeep by reflexivity. reflexivity.
Defined.

Lemma getScoreAndStep_spec_witness :
  let self : ScoredProcessingResult positive positive unit :=
    addScore 7%positive 2.0%float (Some 2%positive)
      (addScore 7%positive 1.0%float (Some 1%positive) empty_result) in
  (getScore 7%positive self = (2.0%float, true)
   ∧ getScoreAndStep 7%positive self = (2.0%float, Some 2%positive, true))
  ∧ (getScoreAndStep 7%positive self = (2.0%float, Some 2%positive, true)
     ∧ getScore 7%positive self = (2.0%float, true))
  ∧ getScoreAndStep 8%positive self = (quiet_NaN, None, false).
Proof.
  intros self.
  destruct (getScoreAndStep_spec 7%positive self) as (Hfirst & Htwo & _).
  destruct (getScoreAndStep_spec 8%positive self) as (_ & _ & Hmiss).
  split; [|split].
  - eapply (Htwo 1%positive 2%positive); reflexivity.
  - apply (Hfirst
             [mkAppliedProcessingStep (Some 1%positive)
                {[ 7%positive := 1.0%float ]}]
             (mkAppliedProcessingStep (Some 2%positive)
                {[ 7%positive := 2.0%float ]})
             [] 2.0%float); [reflexivity..|].
    by intros ? ?%elem_of_nil.
  - apply Hmiss. apply Forall_forall. repeat constructor.
Defined.

Lemma operator_plus_eq_spec_witness :
  let A : ScoredProcessingResult positive positive unit :=
    addScore 7%positive 1.0%float (Some 1%positive) empty_result in
  let B : ScoredProcessingResult positive positive unit :=
    addScore 7%positive 3.0%float (Some 2%positive)
      (addScore 7%positive 9.0%float (Some 1%positive) empty_result) in
  unique_steps (steps_and_scores A)
  ∧ unique_steps (steps_and_scores B)
  ∧ steps_and_scores (operator_plus_eq A B) =
    merge_spec (steps_and_scores B) (steps_and_scores A)
  ∧ steps_and_scores (operator_plus_eq A B) =
    [mkAppliedProcessingStep (Some 1%positive) {[ 7%positive := 9.0%float ]};
     mkAppliedProcessingStep (Some 2%positive) {[ 7%positive := 3.0%float ]}].
Proof.
  intros A B.
  assert (HA : unique_steps (steps_and_scores A)) by compute_done.
  assert (HB : unique_steps (steps_and_scores B)) by compute_done.
  destruct (operator_plus_eq_spec A B) as (_ & Hspec & Hexample).
  split_and!; [exact HA|exact HB|exact (Hspec HA HB)|].
  apply (Hexample 1%positive 2%positive 7%positive);
    [discriminate|reflexivity..].
Defined.

Lemma getScore_by_step_spec_witness :
  let self : ScoredProcessingResult positive positive unit :=
    addScore 7%positive 1.0%float (Some 1%positive) empty_result in
  unique_steps (steps_and_scores self)
  ∧ getScore_by_step 7%positive (Some 1%positive) self = (1.0%float, true)
  ∧ getScore_by_step 8%positive (Some 1%positive) self = (quiet_NaN, false)
  ∧ getScore_by_step 7%positive (Some 2%positive) self = (quiet_NaN, false)
  ∧ getScore_by_step 7%positive None
      (addScore 7%positive 5.0%float None self) = (5.0%float, true)
  ∧ getScore_by_step 7%positive (Some 3%positive)
      (addScore 7%positive 5.0%float None self) = (quiet_NaN, false).
Proof.
  intros self.
  assert (Hc : unique_steps (steps_and_scores self)) by compute_done.
  split_and!; [exact Hc|..].
  - destruct (getScore_by_step_spec 7%positive (Some 1%positive) self Hc)
      as (Hhas & _).
    apply (Hhas 0 (mkAppliedProcessingStep (Some 1%positive)
                     {[ 7%positive := 1.0%float ]})); reflexivity.
  - destruct (getScore_by_step_spec 8%positive (Some 1%positive) self Hc)
      as (_ & Hlacks & _).
    apply (Hlacks 0 (mkAppliedProcessingStep (Some 1%positive)
                       {[ 7%positive := 1.0%float ]})); reflexivity.
  - apply (getScore_by_step_spec 7%positive (Some 2%positive) self Hc).
    compute_done.
  - apply (getScore_by_step_spec 7%positive None self Hc).
  - apply (getScore_by_step_spec 7%positive None self Hc). compute_done.
Defined.

Lemma order_stability_witness :
  let self : ScoredProcessingResult positive positive unit :=
    addScore 7%positive 1.0%float (Some 1%positive) empty_result in
  let other : ScoredProcessingResult positive positive unit :=
    addScore 7%positive 3.0%float (Some 2%positive)
      (addScore 7%positive 9.0%float (Some 1%positive) empty_result) in
  unique_steps (steps_and_scores self)
  ∧ extends_in_place (steps_and_scores self)
      (steps_and_scores
         (addProcessingStep
            (mkAppliedProcessingStep None {[ 8%positive := 4.0%float ]}) self))
  ∧ extends_in_place (steps_and_scores self)
      (steps_and_scores
         (addScore 8%positive 4.0%float (Some 1%positive) self))
  ∧ extends_in_place (steps_and_scores self)
      (steps_and_scores (operator_plus_eq self other)).
Proof.
  intros self other.
  assert (Hc : unique_steps (steps_and_scores self)) by compute_done.
  destruct (order_stability self Hc) as (Hstep & Hscore & Hmerge).
  split_and!; [exact Hc|apply Hstep|apply Hscore|apply Hmerge].
Defined.

Lemma addScore_overwrite_witness :
  let self : ScoredProcessingResult positive positive unit :=
    addScore 7%positive 1.0%float None empty_result in
  unique_steps (steps_and_scores self)
  ∧ getScore_by_step 7%positive (Some 1%positive)
      (addScore 7%positive 2.0%float (Some 1%positive)
         (addScore 7%positive 1.0%float (Some 1%positive) self))
    = (2.0%float, true).
Proof.
  intros self.
  assert (Hc : unique_steps (steps_and_scores self)) by compute_done.
  split; [exact Hc|]. apply (addScore_overwrite _ _ _ _ self Hc).
Defined.

Lemma lookup_miss_witness :
  let self : ScoredProcessingResult positive positive unit :=
    addScore 7%positive 1.0%float (Some 1%positive) empty_result in
  let empty : ScoredProcessingResult positive positive unit :=
    empty_result in
  (getScore 8%positive self = (quiet_NaN, false)
   ∧ getScoreAndStep 8%positive self = (quiet_NaN, None, false))
  ∧ getScore_by_step 8%positive (Some 1%positive) self = (quiet_NaN, false)
  ∧ getScore_by_step 7%positive (Some 2%positive) self = (quiet_NaN, false)
  ∧ getScore 7%positive empty = (quiet_NaN, false)
  ∧ getScoreAndStep 7%positive empty = (quiet_NaN, None, false).
Proof.
  intros self empty.
  destruct (lookup_miss 8%positive self) as (Hmiss & Hlacks & _ & _).
  destruct (lookup_miss 7%positive self) as (_ & Habsent & _ & _).
  destruct (lookup_miss 7%positive empty) as (_ & _ & _ & Hempty).
  split; [|split_and!].
  - apply Hmiss. apply Forall_forall. repeat constructor.
  - apply Hlacks. intros step Hstep _. revert step Hstep.
    apply Forall_forall. repeat constructor.
  - apply Habsent.
    apply (Forall_forall
             (λ step : AppliedProcessingStep positive positive,
                processing_step_opt step = Some 2%positive →
                scores step !! 7%positive = None)).
    repeat constructor. discriminate.
  - apply Hempty. reflexivity.
  - apply Hempty. reflexivity.
Defined.

Lemma merge_equal_noop_witness :
  let self : ScoredProcessingResult positive positive unit :=
    addScore 7%positive 2.0%float (Some 2%positive)
      (addScore 7%positive 1.0%float (Some 1%positive) empty_result) in
  unique_steps (steps_and_scores self)
  ∧ steps_and_scores (operator_plus_eq self self) = steps_and_scores self
  ∧ merge_steps_aliased 2 0 self = Some self
  ∧ addProcessingStep
      (mkAppliedProcessingStep (Some 2%positive) {[ 7%positive := 2.0%float ]})
      self = self.
Proof.
  intros self.
  assert (Hc : unique_steps (steps_and_scores self)) by compute_done.
  destruct (merge_equal_noop self Hc) as (Hmerge & Hself & Hstep).
  split_and!; [exact Hc|by apply Hmerge|exact Hself|].
  eapply (Hstep _ 1); [reflexivity..|].
  intros score_type score Hscore; simpl in Hscore.
  apply lookup_singleton_Some in Hscore as [<- <-]. reflexivity.
Defined.

(** * The further properties on concrete objects *)

Lemma addProcessingStep_idempotent_witness :
  let self : ScoredProcessingResult positive positive unit :=
    addScore 7%positive 1.0%float (Some 1%positive) empty_result in
  let step : AppliedProcessingStep positive positive :=
    mkAppliedProcessingStep (Some 2%positive) {[ 8%positive := 3.0%float ]} in
  unique_steps (steps_and_scores self)
  ∧ addProcessingStep step (addProcessingStep step self)
    = addProcessingStep step self.
Proof.
  intros self step.
  assert (Hc : unique_steps (steps_and_scores self)) by compute_done.
  split; [exact Hc|]. exact (addProcessingStep_idempotent step self Hc).
Defined.

Lemma getScore_after_addProcessingStep_witness :
  let self : ScoredProcessingResult positive positive unit :=
    addScore 7%positive 1.0%float (Some 1%positive) empty_result in
  let step : AppliedProcessingStep positive positive :=
    mkAppliedProcessingStep (Some 1%positive) {[ 8%positive := 3.0%float ]} in
  unique_steps (steps_and_scores self)
  ∧ getScore_by_step 8%positive (Some 1%positive)
      (addProcessingStep step self) = (3.0%float, true)
  ∧ getScore_by_step 7%positive (Some 1%positive)
      (addProcessingStep step self) = (1.0%float, true)
  ∧ getScore_by_step 8%positive None
      (addProcessingStep step self) = (quiet_NaN, false).
Proof.
  intros self step.
  assert (Hc : unique_steps (steps_and_scores self)) by compute_done.
  split; [exact Hc|].
  rewrite !(getScore_after_addProcessingStep _ _ step self Hc).
  split_and!; reflexivity.
Defined.

Lemma addProcessingStep_same_step_witness :
  let self : ScoredProcessingResult positive positive unit :=
    addScore 7%positive 1.0%float (Some 1%positive) empty_result in
  let step1 : AppliedProcessingStep positive positive :=
    mkAppliedProcessingStep (Some 2%positive) {[ 8%positive := 3.0%float ]} in
  let step2 : AppliedProcessingStep positive positive :=
    mkAppliedProcessingStep (Some 2%positive) {[ 8%positive := 4.0%float ]} in
  unique_steps (steps_and_scores self)
  ∧ addProcessingStep step2 (addProcessingStep step1 self) =
    addProcessingStep
      (mkAppliedProcessingStep (Some 2%positive)
         ({[ 8%positive := 4.0%float ]} ∪ {[ 8%positive := 3.0%float ]}))
      self.
Proof.
  intros self step1 step2.
  assert (Hc : unique_steps (steps_and_scores self)) by compute_done.
  split; [exact Hc|].
  exact (addProcessingStep_same_step step1 step2 self Hc eq_refl).
Defined.

Lemma addProcessingStep_commute_witness :
  let self : ScoredProcessingResult positive positive unit :=
    addScore 7%positive 1.0%float (Some 1%positive) empty_result in
  let step1 : AppliedProcessingStep positive positive :=
    mkAppliedProcessingStep (Some 1%positive) {[ 8%positive := 3.0%float ]} in
  let step2 : AppliedProcessingStep positive positive :=
    mkAppliedProcessingStep (Some 2%positive) {[ 8%positive := 4.0%float ]} in
  let step3 : AppliedProcessingStep positive positive :=
    mkAppliedProcessingStep None {[ 8%positive := 5.0%float ]} in
  unique_steps (steps_and_scores self)
  ∧ addProcessingStep step1 (addProcessingStep step2 self)
    = addProcessingStep step2 (addProcessingStep step1 self)
  ∧ addProcessingStep step3 (addProcessingStep step2 self)
    ≠ addProcessingStep step2 (addProcessingStep step3 self).
Proof.
  intros self step1 step2 step3.
  assert (Hc : unique_steps (steps_and_scores self)) by compute_done.
  split_and!; [exact Hc|..].
  - apply (addProcessingStep_commute step1 step2 self Hc); [discriminate|].
    left. compute_done.
  - intros Heq.
    apply (addProcessingStep_commute step3 step2 self Hc) in Heq;
      [|discriminate].
    destruct Heq as [Hin|Hin]; revert Hin; compute_done.
Defined.

Lemma addProcessingStep_ref_no_scores_witness :
  let self : ScoredProcessingResult positive positive unit :=
    addScore 7%positive 1.0%float (Some 1%positive) empty_result in
  unique_steps (steps_and_scores self)
  ∧ step_keys
      (steps_and_scores (addProcessingStep_ref 2%positive ∅ self))
    = [Some 1%positive; Some 2%positive]
  ∧ getScore_by_step 7%positive (Some 2%positive)
      (addProcessingStep_ref 2%positive ∅ self)
    = getScore_by_step 7%positive (Some 2%positive) self
  ∧ getScoreAndStep 7%positive (addProcessingStep_ref 2%positive ∅ self)
    = getScoreAndStep 7%positive self.
Proof.
  intros self.
  assert (Hc : unique_steps (steps_and_scores self)) by compute_done.
  destruct (addProcessingStep_ref_no_scores 2%positive self Hc)
    as (Hkeys & Hdirect & Hscan).
  split_and!; [exact Hc| |apply Hdirect|apply Hscan].
  rewrite Hkeys. reflexivity.
Defined.

Lemma addScore_frame_witness :
  let self : ScoredProcessingResult positive positive unit :=
    addScore 7%positive 1.0%float (Some 1%positive) empty_result in
  unique_steps (steps_and_scores self)
  ∧ getScore_by_step 7%positive (Some 1%positive)
      (addScore 8%positive 3.0%float (Some 1%positive) self)
    = getScore_by_step 7%positive (Some 1%positive) self
  ∧ getScore_by_step 7%positive (Some 1%positive)
      (addScore 7%positive 3.0%float None self)
    = getScore_by_step 7%positive (Some 1%positive) self.
Proof.
  intros self.
  assert (Hc : unique_steps (steps_and_scores self)) by compute_done.
  split_and!; [exact Hc|..].
  - apply (addScore_frame _ _ _ _ _ self Hc). right. discriminate.
  - apply (addScore_frame _ _ _ _ _ self Hc). left. discriminate.
Defined.

Lemma getScoreAndStep_after_addScore_witness :
  let self : ScoredProcessingResult positive positive unit :=
    addScore 7%positive 2.0%float (Some 2%positive)
      (addScore 7%positive 1.0%float (Some 1%positive) empty_result) in
  unique_steps (steps_and_scores self)
  ∧ getScoreAndStep 7%positive
      (addScore 7%positive 9.0%float (Some 3%positive) self)
    = (9.0%float, Some 3%positive, true)
  ∧ getScoreAndStep 7%positive
      (addScore 7%positive 9.0%float (Some 2%positive) self)
    = (9.0%float, Some 2%positive, true)
  ∧ getScoreAndStep 7%positive
      (addScore 7%positive 9.0%float (Some 1%positive) self)
    = getScoreAndStep 7%positive self.
Proof.
  intros self.
  assert (Hc : unique_steps (steps_and_scores self)) by compute_done.
  pose (first := mkAppliedProcessingStep (ScoreTypeRef := positive)
                   (Some 1%positive) {[ 7%positive := 1.0%float ]}).
  pose (second := mkAppliedProcessingStep (ScoreTypeRef := positive)
                    (Some 2%positive) {[ 7%positive := 2.0%float ]}).
  split_and!; [exact Hc|..].
  - apply (getScoreAndStep_after_addScore 7%positive 9.0%float
             (Some 3%positive) self Hc). compute_done.
  - destruct (getScoreAndStep_after_addScore 7%positive 9.0%float
                (Some 2%positive) self Hc) as [_ Hold].
    destruct (Hold [first] second [] eq_refl eq_refl) as [Hlast _].
    apply Hlast. by intros ? ?%elem_of_nil.
  - destruct (getScoreAndStep_after_addScore 7%positive 9.0%float
                (Some 1%positive) self Hc) as [_ Hold].
    destruct (Hold [] first [second] eq_refl eq_refl) as [_ Hshadow].
    apply Hshadow. exists second. split; [left|by eexists].
Defined.

Lemma getScoreAndStep_getScore_witness :
  let self : ScoredProcessingResult positive positive unit :=
    addScore 7%positive 2.0%float (Some 2%positive)
      (addScore 7%positive 1.0%float (Some 1%positive) empty_result) in
  unique_steps (steps_and_scores self)
  ∧ getScoreAndStep 7%positive self = (2.0%float, Some 2%positive, true)
  ∧ getScore_by_step 7%positive (Some 2%positive) self = (2.0%float, true).
Proof.
  intros self.
  assert (Hc : unique_steps (steps_and_scores self)) by compute_done.
  split_and!; [exact Hc|reflexivity|].
  exact (getScoreAndStep_getScore 7%positive 2.0%float (Some 2%positive)
           self Hc eq_refl).
Defined.

Lemma getScore_found_witness :
  let self : ScoredProcessingResult positive positive unit :=
    addScore 7%positive 2.0%float (Some 2%positive)
      (addScore 7%positive 1.0%float (Some 1%positive) empty_result) in
  unique_steps (steps_and_scores self)
  ∧ (getScore 7%positive self).2 = true
  ∧ getScoreAndStep 8%positive self = (quiet_NaN, None, false).
Proof.
  intros self.
  assert (Hc : unique_steps (steps_and_scores self)) by compute_done.
  split_and!; [exact Hc|..].
  - apply (getScore_found 7%positive self Hc).
    exists (Some 1%positive). reflexivity.
  - apply (getScore_found 8%positive self Hc). reflexivity.
Defined.

Lemma operator_plus_eq_empty_witness :
  let self : ScoredProcessingResult positive positive unit :=
    addScore 7%positive 2.0%float (Some 2%positive)
      (addScore 7%positive 1.0%float (Some 1%positive) empty_result) in
  let empty : ScoredProcessingResult positive positive unit :=
    empty_result in
  steps_and_scores (operator_plus_eq self empty) = steps_and_scores self
  ∧ unique_steps (steps_and_scores self)
  ∧ steps_and_scores (operator_plus_eq empty self) = steps_and_scores self.
Proof.
  intros self empty.
  assert (Hc : unique_steps (steps_and_scores self)) by compute_done.
  split_and!; [|exact Hc|].
  - apply (operator_plus_eq_empty self empty). reflexivity.
  - apply (operator_plus_eq_empty empty self); [reflexivity|exact Hc].
Defined.

Lemma operator_plus_eq_idempotent_witness :
  let A : ScoredProcessingResult positive positive unit :=
    addScore 7%positive 1.0%float (Some 1%positive) empty_result in
  let B : ScoredProcessingResult positive positive unit :=
    addScore 7%positive 3.0%float (Some 2%positive)
      (addScore 7%positive 9.0%float (Some 1%positive) empty_result) in
  unique_steps (steps_and_scores A)
  ∧ unique_steps (steps_and_scores B)
  ∧ steps_and_scores (operator_plus_eq (operator_plus_eq A B) B)
    = steps_and_scores (operator_plus_eq A B).
Proof.
  intros A B.
  assert (HA : unique_steps (steps_and_scores A)) by compute_done.
  assert (HB : unique_steps (steps_and_scores B)) by compute_done.
  split_and!; [exact HA|exact HB|].
  exact (operator_plus_eq_idempotent A B HA HB).
Defined.

Lemma getScore_after_operator_plus_eq_witness :
  let A : ScoredProcessingResult positive positive unit :=
    addScore 8%positive 4.0%float (Some 1%positive)
      (addScore 7%positive 1.0%float (Some 1%positive) empty_result) in
  let B : ScoredProcessingResult positive positive unit :=
    addScore 7%positive 3.0%float (Some 2%positive)
      (addScore 7%positive 9.0%float (Some 1%positive) empty_result) in
  unique_steps (steps_and_scores A)
  ∧ unique_steps (steps_and_scores B)
  ∧ getScore_by_step 7%positive (Some 1%positive) (operator_plus_eq A B)
    = (9.0%float, true)
  ∧ getScore_by_step 8%positive (Some 1%positive) (operator_plus_eq A B)
    = (4.0%float, true).
Proof.
  intros A B.
  assert (HA : unique_steps (steps_and_scores A)) by compute_done.
  assert (HB : unique_steps (steps_and_scores B)) by compute_done.
  split_and!; [exact HA|exact HB|..].
  - rewrite (getScore_after_operator_plus_eq _ _ A B HA HB). reflexivity.
  - rewrite (getScore_after_operator_plus_eq _ _ A B HA HB). reflexivity.
Defined.


Lemma scores_are_kept_witness :
  let self : ScoredProcessingResult positive positive unit :=
    addScore 7%positive 1.0%float (Some 1%positive) empty_result in
  let other : ScoredProcessingResult positive positive unit :=
    addScore 7%positive 3.0%float (Some 2%positive)
      (addScore 8%positive 9.0%float (Some 1%positive) empty_result) in
  unique_steps (steps_and_scores self)
  ∧ (getScore_by_step 7%positive (Some 1%positive) self).2 = true
  ∧ (getScore_by_step 7%positive (Some 1%positive)
       (operator_plus_eq self other)).2 = true
  ∧ (getScore 7%positive self).2 = true
  ∧ (getScore 7%positive
       (addScore 8%positive 2.0%float None self)).2 = true.
Proof.
  intros self other.
  assert (Hc : unique_steps (steps_and_scores self)) by compute_done.
  destruct (scores_are_kept 7%positive self Hc) as [Hdirect Hscan].
  split_and!; [exact Hc|reflexivity| |reflexivity|].
  - apply (Hdirect (Some 1%positive)). reflexivity.
  - apply Hscan. reflexivity.
Defined.

Lemma AppliedProcessingStep_eq_spec_witness :
  let plain : AppliedProcessingStep positive positive :=
    mkAppliedProcessingStep (Some 1%positive) {[ 7%positive := 1.0%float ]} in
  let undefined : AppliedProcessingStep positive positive :=
    mkAppliedProcessingStep (Some 1%positive) {[ 7%positive := quiet_NaN ]} in
  AppliedProcessingStep_eq plain plain = true
  ∧ AppliedProcessingStep_eq undefined undefined = false.
Proof.
  intros plain undefined. split.
  - apply (AppliedProcessingStep_eq_spec plain).
    intros score_type score Hscore; simpl in Hscore.
    apply lookup_singleton_Some in Hscore as [_ <-]. reflexivity.
  - apply not_true_is_false. intros Heq.
    destruct (AppliedProcessingStep_eq_spec undefined) as [[Hnan _] _].
    specialize (Hnan Heq 7%positive quiet_NaN eq_refl). discriminate Hnan.
Defined.
